(** * ops: tracking operations, their metadata and their final status

    A shallow embedding of [ops.go].  The Go program keeps three kinds of
    mutable objects: the package-level [reporters] slice, the [*op] handles,
    and (inside the imported context package) the scopes with their tags.
    Handles, scopes and the maps returned by [AsMap] are pointers in Go, so
    each lives in a heap here: a list indexed by address, where allocation
    appends and the new address is the old length.  Every operation is a
    function from the world to the world.  The package-level [Go] only
    forwards to the context package and is left out. *)

From stdpp Require Import base option list gmap strings.
From Stdlib Require Import ZArith.

Set Default Proof Using "Type".

(** ** Values *)

(** [interface{}] values carried as tags. *)
Inductive any :=
  | ANil
  | AStr (s : string)
  | AInt (z : Z)
  | ABool (b : bool).

(** A non-nil Go [error]. *)
Record err := Err { err_msg : string }.

(** The Go [error] interface: [None] is [nil]. *)
Definition error := option err.

(** The map a reporter receives.  [flat_tags] is the [map[string]interface{}];
    [flat_failure] is the failure embedded by the flatten. *)
Record Flat := MkFlat {
  flat_tags : gmap string any;
  flat_failure : error
}.

Section Ops.

(** [U] is the state of the host program that callbacks (reporters, dynamic
    value functions) read and write; [Task] is the type of the [func()]
    values handed to [Go]. *)
Context {U Task : Type}.

(** [type Reporter func(failure error, ctx map[string]interface{})].  The
    map is passed by reference: the reporter sees its current contents and
    what it returns is written back to the same address.  Besides the map a
    reporter acts on the user state only. *)
Definition Reporter := error → Flat → U → Flat * U.

(** [valueFN func() interface{}] of [PutDynamic]. *)
Definition dynfn := U → any * U.

Inductive tag :=
  | Static (v : any)
  | Dynamic (f : dynfn).

(** One level of the context stack. *)
Record Scope := MkScope {
  parent : option nat;
  data : gmap string tag
}.

(** [type op struct { ctx context.Context; failure error }].  [ctx] is the
    address of a scope, or [None] once the root has been exited. *)
Record op := MkOp {
  ctx : option nat;
  failure : error
}.

(** One reporter invocation: the function value, and the two arguments. *)
Definition call_record := (Reporter * error * nat)%type.

Record World := MkWorld {
  reporters : list Reporter;          (* var reporters []Reporter *)
  store : list Scope;                 (* heap of scopes *)
  ops : list op;                      (* heap of *op *)
  maps : list Flat;                   (* heap of maps built by AsMap *)
  user : U;
  spawned : list (option nat * Task); (* units of work launched by Go *)
  evals : list string;                (* log: dynamic values evaluated *)
  calls : list call_record            (* log: reporters invoked *)
}.

Definition set_reporters (rs : list Reporter) (W : World) : World :=
  MkWorld rs (store W) (ops W) (maps W) (user W) (spawned W) (evals W) (calls W).
Definition set_store (st : list Scope) (W : World) : World :=
  MkWorld (reporters W) st (ops W) (maps W) (user W) (spawned W) (evals W) (calls W).
Definition set_ops (os : list op) (W : World) : World :=
  MkWorld (reporters W) (store W) os (maps W) (user W) (spawned W) (evals W) (calls W).
Definition set_spawned (sp : list (option nat * Task)) (W : World) : World :=
  MkWorld (reporters W) (store W) (ops W) (maps W) (user W) sp (evals W) (calls W).

(** ** The hierarchical context store *)

(** Modelled from the spec: [enterScope] of the context package, which is
    imported by [ops.go] and not part of it.  Creates a child scope of [p],
    or a new root when [p] is [None]; the new scope has no tags. *)
Definition enterScope (p : option nat) (st : list Scope) : nat * list Scope :=
  (length st, st ++ [MkScope p ∅]).

Definition set_tag (k : string) (t : tag) (sc : Scope) : Scope :=
  MkScope (parent sc) (<[k:=t]> (data sc)).

(** Modelled from the spec: [put] and [putDynamic] of the context package.
    Attaches or overwrites the tag [k] at the level [s] itself. *)
Definition put (s : option nat) (k : string) (t : tag) (st : list Scope)
  : list Scope :=
  match s with
  | Some i => alter (set_tag k t) i st
  | None => st
  end.

(** The tags visible from [s]: every level of the ancestor chain, the
    descendant winning on a key collision.  [fuel] bounds the walk up. *)
Fixpoint merged (fuel : nat) (st : list Scope) (s : option nat)
  : gmap string tag :=
  match fuel, s with
  | S n, Some i =>
      match st !! i with
      | Some sc => data sc ∪ merged n st (parent sc)
      | None => ∅
      end
  | _, _ => ∅
  end.

Definition tags_of (st : list Scope) (s : option nat) : gmap string tag :=
  merged (length st) st s.

(** Modelled from the spec: [putIfAbsent] of the context package.  Attaches
    only if no value for [k] exists anywhere in the ancestor chain up to
    and including [s]. *)
Definition putIfAbsent (s : option nat) (k : string) (v : any)
    (st : list Scope) : list Scope :=
  match tags_of st s !! k with
  | Some _ => st
  | None => put s k (Static v) st
  end.

(** Modelled from the spec: [exitScope] of the context package: one level
    up. *)
Definition exitScope (s : option nat) (st : list Scope) : option nat :=
  i ← s; sc ← st !! i; parent sc.

(** Reading one tag while flattening.  A dynamic tag calls its function, on
    the current user state, and the call is logged. *)
Definition read_tag (k : string) (t : tag)
    (acc : gmap string any * U * list string)
  : gmap string any * U * list string :=
  let '(m, u, log) := acc in
  match t with
  | Static v => (<[k:=v]> m, u, log)
  | Dynamic f => let '(v, u') := f u in (<[k:=v]> m, u', log ++ [k])
  end.

Definition read_tags (tags : gmap string tag) (u : U) (log : list string)
  : gmap string any * U * list string :=
  map_fold read_tag (∅, u, log) tags.

(** Modelled from the spec: [flatten] of the context package ([AsMap] in
    the Go call).  Merges the levels, evaluates the dynamic tags now, embeds
    the failure when asked to, and returns the address of a new map. *)
Definition AsMap (s : option nat) (f : error) (include : bool) (W : World)
  : nat * World :=
  let '(m, u, log) := read_tags (tags_of (store W) s) (user W) (evals W) in
  (length (maps W),
   MkWorld (reporters W) (store W) (ops W)
     (maps W ++ [MkFlat m (if include then f else None)])
     u (spawned W) log (calls W)).

(** ** The registry *)

(** [func RegisterReporter(reporter Reporter)] *)
Definition RegisterReporter (r : Reporter) (W : World) : World :=
  set_reporters (reporters W ++ [r]) W.

(** Registering [rs] one after the other. *)
Definition register_all (rs : list Reporter) (W : World) : World :=
  foldl (λ W r, RegisterReporter r W) W rs.

(** ** Handles *)

(** The scope that both [Enter] functions build:
    [c.Enter().Put("op", name).PutIfAbsent("root_op", name)]. *)
Definition enter_scope (p : option nat) (name : string) (st : list Scope)
  : nat * list Scope :=
  let '(s, st1) := enterScope p st in
  let st2 := put (Some s) "op" (Static (AStr name)) st1 in
  (s, putIfAbsent (Some s) "root_op" (AStr name) st2).

Definition new_op (o : op) (W : World) : nat * World :=
  (length (ops W), set_ops (ops W ++ [o]) W).

(** [func Enter(name string) Op] *)
Definition Enter (name : string) (W : World) : nat * World :=
  let '(s, st) := enter_scope None name (store W) in
  new_op (MkOp (Some s) None) (set_store st W).

(** [func (o *op) Enter(name string) Op] *)
Definition op_Enter (o : nat) (name : string) (W : World)
  : option (nat * World) :=
  h ← ops W !! o;
  let '(s, st) := enter_scope (ctx h) name (store W) in
  Some (new_op (MkOp (Some s) None) (set_store st W)).

(** [func (o *op) Go(fn func())] *)
Definition op_Go (o : nat) (fn : Task) (W : World) : option World :=
  h ← ops W !! o;
  Some (set_spawned (spawned W ++ [(ctx h, fn)]) W).

(** One iteration of [for _, reporter := range reportersCopy]:
    [reporter(o.failure, ctx)]. *)
Definition invoke1 (o : nat) (m : nat) (r : Reporter) (W : World)
  : option World :=
  h ← ops W !! o;
  fl ← maps W !! m;
  let '(fl', u') := r (failure h) fl (user W) in
  Some (MkWorld (reporters W) (store W) (ops W) (<[m:=fl']> (maps W))
          u' (spawned W) (evals W) (calls W ++ [(r, failure h, m)])).

Fixpoint invoke (o : nat) (m : nat) (rs : list Reporter) (W : World)
  : option World :=
  match rs with
  | [] => Some W
  | r :: rs' => W1 ← invoke1 o m r W; invoke o m rs' W1
  end.

(** The last statement of [Exit]: [return &op{ctx: o.ctx.Exit()}]. *)
Definition exit_pop (o : nat) (W : World) : option (nat * World) :=
  h ← ops W !! o;
  Some (new_op (MkOp (exitScope (ctx h) (store W)) None) W).

(** [func (o *op) Exit() Op] *)
Definition op_Exit (o : nat) (W : World) : option (nat * World) :=
  let reportersCopy := reporters W in
  W1 ← match reportersCopy with
       | [] => Some W
       | _ :: _ =>
           h ← ops W !! o;
           let '(m, Wf) := AsMap (ctx h) (failure h) true W in
           invoke o m reportersCopy Wf
       end;
  exit_pop o W1.

Definition put_ctx (o : nat) (k : string) (t : tag) (W : World)
  : option (nat * World) :=
  h ← ops W !! o;
  Some (o, set_store (put (ctx h) k t (store W)) W).

(** [func (o *op) Put(key string, value interface{}) Op] *)
Definition op_Put (o : nat) (k : string) (v : any) (W : World)
  : option (nat * World) :=
  put_ctx o k (Static v) W.

(** [func (o *op) PutDynamic(key string, valueFN func() interface{}) Op] *)
Definition op_PutDynamic (o : nat) (k : string) (f : dynfn) (W : World)
  : option (nat * World) :=
  put_ctx o k (Dynamic f) W.

(** [func (o *op) FailOnError(err error) error] *)
Definition op_FailOnError (o : nat) (e : error) (W : World)
  : option (error * World) :=
  match e with
  | Some _ =>
      h ← ops W !! o;
      Some (e, set_ops (<[o := MkOp (ctx h) e]> (ops W)) W)
  | None => Some (e, W)
  end.

(** ** Programs over the package's surface *)

(** One call of the exposed surface.  Results are dropped: a handle returned
    by [Enter] or [Exit] is the address [length (ops W)] of the world before
    the call. *)
Inductive call :=
  | CEnter (name : string)
  | COpEnter (o : nat) (name : string)
  | COpGo (o : nat) (fn : Task)
  | COpExit (o : nat)
  | COpPut (o : nat) (k : string) (v : any)
  | COpPutDynamic (o : nat) (k : string) (f : dynfn)
  | COpFailOnError (o : nat) (e : error)
  | CRegisterReporter (r : Reporter).

Definition exec (c : call) (W : World) : option World :=
  match c with
  | CEnter name => Some (Enter name W).2
  | COpEnter o name => snd <$> op_Enter o name W
  | COpGo o fn => op_Go o fn W
  | COpExit o => snd <$> op_Exit o W
  | COpPut o k v => snd <$> op_Put o k v W
  | COpPutDynamic o k f => snd <$> op_PutDynamic o k f W
  | COpFailOnError o e => snd <$> op_FailOnError o e W
  | CRegisterReporter r => Some (RegisterReporter r W)
  end.

Fixpoint run (cs : list call) (W : World) : option World :=
  match cs with
  | [] => Some W
  | c :: cs' => W1 ← exec c W; run cs' W1
  end.

(** The reporters a call adds to the registry. *)
Definition registered (c : call) : list Reporter :=
  match c with
  | CRegisterReporter r => [r]
  | _ => []
  end.

(** ** [Exit] step by step, with registrations in between *)

(** Where a running [Exit] stands.  The read-locked block is one step: the
    mutex excludes [RegisterReporter], whose locked block is one step too. *)
Inductive exit_pc :=
  | AtSnapshot                              (* before reportersMutex.RLock() *)
  | AtFlatten (copy : list Reporter)        (* after reportersMutex.RUnlock() *)
  | AtLoop (m : nat) (rest : list Reporter) (* in the range loop *)
  | AtPop                                   (* before the return statement *)
  | Returned (h : nat).

Definition exit_step (o : nat) (pc : exit_pc) (W : World)
  : option (exit_pc * World) :=
  match pc with
  | AtSnapshot => Some (AtFlatten (reporters W), W)
  | AtFlatten [] => Some (AtPop, W)
  | AtFlatten (r :: rs) =>
      h ← ops W !! o;
      let '(m, Wf) := AsMap (ctx h) (failure h) true W in
      Some (AtLoop m (r :: rs), Wf)
  | AtLoop m [] => Some (AtPop, W)
  | AtLoop m (r :: rs) => W1 ← invoke1 o m r W; Some (AtLoop m rs, W1)
  | AtPop => '(h', W') ← exit_pop o W; Some (Returned h', W')
  | Returned _ => None
  end.

(** A step of the thread running [o.Exit()], or a registration by any
    other thread. *)
Inductive conc_step (o : nat) : exit_pc * World → exit_pc * World → Prop :=
  | step_exit pc W pc' W' :
      exit_step o pc W = Some (pc', W') →
      conc_step o (pc, W) (pc', W')
  | step_register pc W r :
      conc_step o (pc, W) (pc, RegisterReporter r W).

(** A schedule is run from left to right: [None] lets the thread in [Exit]
    take its next step, [Some r] lets another thread register [r]. *)
Fixpoint run_sched (o : nat) (sch : list (option Reporter))
    (x : exit_pc * World) : option (exit_pc * World) :=
  match sch with
  | [] => Some x
  | None :: sch' => y ← exit_step o x.1 x.2; run_sched o sch' y
  | Some r :: sch' => run_sched o sch' (x.1, RegisterReporter r x.2)
  end.

(** ** Well-formed worlds *)

(** A parent was allocated before its child. *)
Definition wf_store (st : list Scope) : Prop :=
  ∀ i sc p, st !! i = Some sc → parent sc = Some p → p < i.

Definition valid_scope (st : list Scope) (s : option nat) : Prop :=
  ∀ i, s = Some i → i < length st.

Definition wf (W : World) : Prop :=
  wf_store (store W) ∧ ∀ o h, ops W !! o = Some h → valid_scope (store W) (ctx h).

(** The tags [Enter] leaves in the scope it builds, given what the parent
    chain holds under [root_op]. *)
Definition enter_tags (name : string) (inherited : option tag)
  : gmap string tag :=
  match inherited with
  | Some _ => {[ "op" := Static (AStr name) ]}
  | None => <[ "root_op" := Static (AStr name) ]>
              {[ "op" := Static (AStr name) ]}
  end.

(** The failure latched in handle [o] after call [c], when it was [f]
    before. *)
Definition latched (c : call) (o : nat) (f : error) : error :=
  match c with
  | COpFailOnError o' (Some e) => if decide (o' = o) then Some e else f
  | _ => f
  end.

(** The world at process start. *)
Definition init (u : U) : World := MkWorld [] [] [] [] u [] [] [].

(** What the reporters do to the map and to the user state when run one
    after the other on the same map. *)
Definition run_reporters (f : error) (rs : list Reporter) (x : Flat * U)
  : Flat * U :=
  foldl (λ x r, r f x.1 x.2) x rs.

Definition reports (f : error) (m : nat) (rs : list Reporter)
  : list call_record :=
  (λ r, (r, f, m)) <$> rs.

(** What holds while [o.Exit()] runs, once it has taken its snapshot in
    world [W0], with [h] at address [o]: the reporters invoked so far are
    the part of the snapshot already iterated, whatever was registered
    since. *)
Definition exit_inv (W0 : World) (h : op) (x : exit_pc * World) : Prop :=
  let '(pc, W) := x in
  let m := length (maps W0) in
  reporters W0 `prefix_of` reporters W ∧ store W = store W0 ∧
  match pc with
  | AtSnapshot => False
  | AtFlatten copy =>
      copy = reporters W0 ∧
      ops W = ops W0 ∧ maps W = maps W0 ∧ calls W = calls W0
  | AtLoop m' rest =>
      ops W = ops W0 ∧ m' = m ∧ m < length (maps W) ∧
      ∃ seen, seen ++ rest = reporters W0 ∧
              calls W = calls W0 ++ reports (failure h) m seen
  | AtPop =>
      ops W = ops W0 ∧
      calls W = calls W0 ++ reports (failure h) m (reporters W0)
  | Returned a =>
      a = length (ops W0) ∧
      ops W = ops W0 ++ [MkOp (exitScope (ctx h) (store W0)) None] ∧
      calls W = calls W0 ++ reports (failure h) m (reporters W0)
  end.

(** What is left of [o.Exit()] from the point [pc], when no other thread
    interferes. *)
Definition finish (o : nat) (pc : exit_pc) (W : World)
  : option (nat * World) :=
  match pc with
  | AtSnapshot => op_Exit o W
  | AtFlatten copy =>
      W1 ← match copy with
           | [] => Some W
           | _ :: _ =>
               h ← ops W !! o;
               let '(m, Wf) := AsMap (ctx h) (failure h) true W in
               invoke o m copy Wf
           end;
      exit_pop o W1
  | AtLoop m rest => W1 ← invoke o m rest W; exit_pop o W1
  | AtPop => exit_pop o W
  | Returned a => Some (a, W)
  end.

(** The number of handles a call allocates: [&op{...}] occurs in the two
    [Enter] functions and in [Exit]. *)
Definition allocs (c : call) : nat :=
  match c with
  | CEnter _ | COpEnter _ _ | COpExit _ => 1
  | _ => 0
  end.

End Ops.

Arguments Reporter : clear implicits.
Arguments dynfn : clear implicits.
Arguments tag : clear implicits.
Arguments Scope : clear implicits.
Arguments call_record : clear implicits.
Arguments World : clear implicits.
Arguments call : clear implicits.
Arguments exit_pc : clear implicits.

(** ** A small program *)

(** The user state is a log of lines. *)

(** A reporter that appends [msg] to the log. *)
Definition say (msg : string) : Reporter (list string) :=
  λ _ fl log, (fl, log ++ [msg]).

(** A reporter that writes into the map it is given. *)
Definition mark : Reporter (list string) :=
  λ _ fl log,
    (MkFlat (<["seen" := ABool true]> (flat_tags fl)) (flat_failure fl), log).

(** A reporter that looks for that write. *)
Definition probe : Reporter (list string) :=
  λ _ fl log,
    (fl, log ++ [match flat_tags fl !! "seen" with
                 | Some _ => "seen"
                 | None => "clean"
                 end]).

(** A dynamic value that leaves a line in the log each time it is read. *)
Definition tick : dynfn (list string) :=
  λ log, (AInt (Z.of_nat (length log)), log ++ ["tick"]).

Definition start : World (list string) unit := init [].

(** Handle 0 on scope 0, entered as "A"; the registry is [rs]. *)
Definition entered (rs : list (Reporter (list string)))
  : World (list string) unit :=
  (Enter "A" (register_all rs start)).2.

(** The same with a dynamic tag on the scope. *)
Definition ticking (rs : list (Reporter (list string)))
  : World (list string) unit :=
  default (entered rs) (snd <$> op_PutDynamic 0 "t" tick (entered rs)).

Definition root_handle : op := MkOp (Some 0) None.

(** A run of [Exit] on handle 0 during which "O2" is registered while the
    loop is about to call "O1". *)
Definition race : list (option (Reporter (list string))) :=
  [None; None; Some (say "O2"); None; None; None].

Definition after_race : World (list string) unit :=
  default start (snd <$> run_sched 0 race (AtSnapshot, entered [say "O1"])).

Definition quiet_calls : list (call (list string) unit) :=
  [COpPut 0 "k" (AInt 1); COpFailOnError 0 None; COpEnter 0 "B"].

Definition after_quiet : World (list string) unit :=
  default start (run quiet_calls (entered [say "O1"])).

Definition busy_calls : list (call (list string) unit) :=
  [CRegisterReporter (say "O1"); COpExit 0; CRegisterReporter (say "O2");
   COpExit 1].

Definition after_busy : World (list string) unit :=
  default start (run busy_calls (entered [])).

(** A reporter that writes down the failure it is given. *)
Definition note : Reporter (list string) :=
  λ f fl log,
    (fl, log ++ [match f with Some e => err_msg e | None => "ok" end]).

(** A reporter that writes down what it finds under "t". *)
Definition read_t : Reporter (list string) :=
  λ _ fl log,
    (fl, log ++ [match flat_tags fl !! "t" with
                 | Some (AInt 0) => "t=0"
                 | Some _ => "t>0"
                 | None => "no t"
                 end]).





Definition after_quiet_note : World (list string) unit :=
  default start (run quiet_calls (entered [note])).

Section Proofs.

Context {U Task : Type}.
Implicit Types (W : World U Task) (st : list (Scope U)) (sc : Scope U).
Implicit Types (s p : option nat) (rs : list (Reporter U)) (r : Reporter U).
Implicit Types (h : op) (f : error) (c : call U Task).

(** *** Flatten *)

Lemma read_tags_lookup (tags : gmap string (tag U)) u log k :
  (read_tags tags u log).1.1 !! k =
    t ← tags !! k;
    Some (match t with
          | Static v => v
          | Dynamic _ => default ANil ((read_tags tags u log).1.1 !! k)
          end).
Proof.
  unfold read_tags.
  apply (map_fold_weak_ind (λ acc tg,
    acc.1.1 !! k = t ← tg !! k;
      Some (match t with
            | Static v => v
            | Dynamic _ => default ANil (acc.1.1 !! k)
            end))).
  - by rewrite !lookup_empty.
  - intros i x tg [[m u'] lg] Hi IH. simpl in IH.
    destruct (decide (i = k)) as [->|Hne].
    + rewrite lookup_insert_eq. simpl.
      destruct x as [v|g]; simpl; [by rewrite lookup_insert_eq|].
      destruct (g u') as [v u'']; simpl. by rewrite lookup_insert_eq.
    + rewrite (lookup_insert_ne tg) by done.
      assert (Hm : (read_tag i x (m, u', lg)).1.1 !! k = m !! k).
      { destruct x as [v|g]; simpl; [by rewrite lookup_insert_ne|].
        destruct (g u') as [v u'']; simpl. by rewrite lookup_insert_ne. }
      by rewrite Hm.
Qed.

(** A static tag is read as it is. *)
Lemma read_tags_static (tags : gmap string (tag U)) u log k v :
  tags !! k = Some (Static v) → (read_tags tags u log).1.1 !! k = Some v.
Proof. intros Hk. by rewrite read_tags_lookup, Hk. Qed.

Lemma read_tags_None (tags : gmap string (tag U)) u log k :
  tags !! k = None → (read_tags tags u log).1.1 !! k = None.
Proof. intros Hk. by rewrite read_tags_lookup, Hk. Qed.

(** No tag, nothing evaluated. *)
Lemma read_tags_empty u log :
  read_tags (∅ : gmap string (tag U)) u log = (∅, u, log).
Proof. unfold read_tags. by rewrite map_fold_empty. Qed.

Lemma AsMap_eq s f b W :
  AsMap s f b W =
    (length (maps W),
     let x := read_tags (tags_of (store W) s) (user W) (evals W) in
     MkWorld (reporters W) (store W) (ops W)
       (maps W ++ [MkFlat x.1.1 (if b then f else None)])
       x.1.2 (spawned W) x.2 (calls W)).
Proof. unfold AsMap. by destruct (read_tags _ _ _) as [[??]?]. Qed.

(** *** The reporting loop *)

Lemma run_reporters_cons f r rs (x : Flat * U) :
  run_reporters f (r :: rs) x = run_reporters f rs (r f x.1 x.2).
Proof. done. Qed.

Lemma invoke1_eq o m r W h fl :
  ops W !! o = Some h → maps W !! m = Some fl →
  invoke1 o m r W =
    Some (MkWorld (reporters W) (store W) (ops W)
            (<[m := (r (failure h) fl (user W)).1]> (maps W))
            (r (failure h) fl (user W)).2
            (spawned W) (evals W) (calls W ++ [(r, failure h, m)])).
Proof.
  intros Ho Hm. unfold invoke1. rewrite Ho, Hm. simpl.
  by destruct (r _ _ _).
Qed.

(** The loop runs to its end; it touches nothing but the one map, the user
    state and the log of invocations. *)
Lemma invoke_spec o m rs W h fl :
  ops W !! o = Some h → maps W !! m = Some fl →
  ∃ W', invoke o m rs W = Some W' ∧
    reporters W' = reporters W ∧ store W' = store W ∧ ops W' = ops W ∧
    spawned W' = spawned W ∧ evals W' = evals W ∧
    calls W' = calls W ++ reports (failure h) m rs ∧
    maps W' = <[m := (run_reporters (failure h) rs (fl, user W)).1]> (maps W) ∧
    user W' = (run_reporters (failure h) rs (fl, user W)).2.
Proof.
  revert W fl. induction rs as [|r rs IH]; intros W fl Ho Hm.
  - exists W. simpl. rewrite app_nil_r, list_insert_id by done. done.
  - simpl. rewrite (invoke1_eq _ _ _ _ _ _ Ho Hm). simpl.
    set (W1 := MkWorld _ _ _ _ _ _ _ _).
    assert (Hm1 : maps W1 !! m = Some (r (failure h) fl (user W)).1).
    { simpl. apply list_lookup_insert_eq. by eapply lookup_lt_Some. }
    destruct (IH W1 _ Ho Hm1) as (W' & -> & ? & ? & ? & ? & ? & Hc & Hmp & Hu).
    exists W'. split_and!; try done.
    + rewrite Hc. simpl. by rewrite <- app_assoc.
    + rewrite Hmp. simpl. rewrite list_insert_insert_eq.
      by destruct (r (failure h) fl (user W)).
    + rewrite Hu. simpl. by destruct (r (failure h) fl (user W)).
Qed.

(** *** Exit *)

Lemma exit_pop_eq o W h :
  ops W !! o = Some h →
  exit_pop o W =
    Some (length (ops W),
          set_ops (ops W ++ [MkOp (exitScope (ctx h) (store W)) None]) W).
Proof. intros Ho. unfold exit_pop. by rewrite Ho. Qed.

(** With an empty registry [Exit] only allocates the handle it returns. *)
Lemma op_Exit_silent o W h :
  ops W !! o = Some h → reporters W = [] →
  op_Exit o W =
    Some (length (ops W),
          set_ops (ops W ++ [MkOp (exitScope (ctx h) (store W)) None]) W).
Proof.
  intros Ho Hr. unfold op_Exit. rewrite Hr. simpl. by apply exit_pop_eq.
Qed.

(** What [Exit] does, for any registry. *)
Lemma op_Exit_spec o W h :
  ops W !! o = Some h →
  ∃ W', op_Exit o W = Some (length (ops W), W') ∧
    reporters W' = reporters W ∧ store W' = store W ∧
    spawned W' = spawned W ∧
    ops W' = ops W ++ [MkOp (exitScope (ctx h) (store W)) None] ∧
    calls W' = calls W ++ reports (failure h) (length (maps W)) (reporters W).
Proof.
  intros Ho. destruct (reporters W) as [|r rs] eqn:Hr.
  - eexists. split; [by apply op_Exit_silent|].
    simpl. by rewrite app_nil_r.
  - unfold op_Exit. rewrite Hr, Ho. simpl.
    rewrite AsMap_eq. simpl.
    set (x := read_tags _ _ _). set (Wf := MkWorld _ _ _ _ _ _ _ _).
    assert (Hm : maps Wf !! length (maps W)
                 = Some (MkFlat x.1.1 (failure h))).
    { simpl. by rewrite lookup_app_r, Nat.sub_diag by lia. }
    destruct (invoke_spec o (length (maps W)) (r :: rs) Wf h _ Ho Hm)
      as (W1 & Hinv & Hr1 & Hs1 & Ho1 & Hsp1 & _ & Hc1 & _ & _).
    simpl in Hinv. rewrite Hinv. simpl.
    assert (Ho' : ops W1 !! o = Some h) by (by rewrite Ho1).
    rewrite (exit_pop_eq _ _ _ Ho'). eexists. split.
    { by rewrite Ho1. }
    simpl. rewrite ?Hr1, ?Hs1, ?Hsp1, ?Ho1, ?Hc1. done.
Qed.

(** With a registry that is not empty: one flatten, then the loop. *)
Lemma op_Exit_reporting o W h :
  ops W !! o = Some h → reporters W ≠ [] →
  ∃ W', op_Exit o W = Some (length (ops W), W') ∧
    let x := read_tags (tags_of (store W) (ctx h)) (user W) (evals W) in
    let y := run_reporters (failure h) (reporters W)
               (MkFlat x.1.1 (failure h), x.1.2) in
    maps W' = maps W ++ [y.1] ∧ user W' = y.2 ∧ evals W' = x.2.
Proof.
  intros Ho Hne. unfold op_Exit. rewrite Ho.
  destruct (reporters W) as [|r rs] eqn:Hr; [done|]. simpl.
  rewrite AsMap_eq. simpl.
  set (x := read_tags _ _ _). set (Wf := MkWorld _ _ _ _ _ _ _ _).
  assert (Hm : maps Wf !! length (maps W)
               = Some (MkFlat x.1.1 (failure h))).
  { simpl. by rewrite lookup_app_r, Nat.sub_diag by lia. }
  destruct (invoke_spec o (length (maps W)) (r :: rs) Wf h _ Ho Hm)
    as (W1 & Hinv & _ & _ & Ho1 & _ & He1 & _ & Hm1 & Hu1).
  simpl in Hinv. rewrite Hinv. simpl.
  assert (Ho' : ops W1 !! o = Some h) by (by rewrite Ho1).
  rewrite (exit_pop_eq _ _ _ Ho'). eexists. split.
  { by rewrite Ho1. }
  simpl. rewrite Hm1, Hu1, He1. simpl. split_and!; try done.
  replace (length (maps W)) with (length (maps W) + 0) by lia.
  by rewrite insert_app_r.
Qed.

(** *** The context store *)

Lemma merged_None n st : merged n st None = ∅.
Proof. by destruct n. Qed.

(** In a well-formed store the walk up from [i] needs [S i] steps at most. *)
Lemma merged_enough st :
  wf_store st → ∀ i n, i < n → merged n st (Some i) = merged (S i) st (Some i).
Proof.
  intros Hwf i. induction (lt_wf i) as [i _ IH]. intros n Hn.
  destruct n as [|n]; [lia|]. simpl.
  destruct (st !! i) as [sc|] eqn:Hi; [|done].
  destruct (parent sc) as [q|] eqn:Hq; [|by rewrite !merged_None].
  assert (q < i) by (by eapply Hwf).
  rewrite (IH q) by lia. by rewrite (IH q H i) by lia.
Qed.

Lemma tags_of_Some st i sc :
  wf_store st → st !! i = Some sc →
  tags_of st (Some i) = data sc ∪ tags_of st (parent sc).
Proof.
  intros Hwf Hi. unfold tags_of.
  assert (i < length st) by (by eapply lookup_lt_Some).
  rewrite merged_enough by done. simpl. rewrite Hi. f_equal.
  destruct (parent sc) as [q|] eqn:Hq; [|by rewrite !merged_None].
  assert (q < i) by (by eapply Hwf).
  rewrite (merged_enough _ Hwf q i) by done.
  by rewrite (merged_enough _ Hwf q (length st)) by lia.
Qed.

Lemma merged_app st l :
  wf_store st → ∀ n i, i < length st →
  merged n (st ++ l) (Some i) = merged n st (Some i).
Proof.
  intros Hwf n. induction n as [|n IH]; intros i Hi; [done|]. simpl.
  rewrite lookup_app_l by done.
  destruct (st !! i) as [sc|] eqn:Hsc; [|done]. f_equal.
  destruct (parent sc) as [q|] eqn:Hq; [|by rewrite !merged_None].
  assert (q < i) by (by eapply Hwf). apply IH. lia.
Qed.

(** Scopes allocated later are not seen from an older scope. *)
Lemma tags_of_app st l p :
  wf_store st → valid_scope st p → tags_of (st ++ l) p = tags_of st p.
Proof.
  intros Hwf Hp. unfold tags_of. destruct p as [i|]; [|by rewrite !merged_None].
  assert (i < length st) by (by apply Hp).
  rewrite merged_app by done.
  rewrite merged_enough by (rewrite ?length_app; done || lia).
  by rewrite (merged_enough _ Hwf i (length st)) by done.
Qed.

Lemma wf_store_snoc st sc :
  wf_store st → valid_scope st (parent sc) → wf_store (st ++ [sc]).
Proof.
  intros Hwf Hp i sc' q Hi Hq.
  apply lookup_app_Some in Hi as [Hi|[Hlen Hi]].
  - by eapply Hwf.
  - apply list_lookup_singleton_Some in Hi as [Hz ->].
    specialize (Hp q Hq). lia.
Qed.

Lemma tags_of_snoc st sc :
  wf_store st → valid_scope st (parent sc) →
  tags_of (st ++ [sc]) (Some (length st)) = data sc ∪ tags_of st (parent sc).
Proof.
  intros Hwf Hp.
  rewrite (tags_of_Some (st ++ [sc]) (length st) sc).
  - by rewrite tags_of_app.
  - by apply wf_store_snoc.
  - by rewrite lookup_app_r, Nat.sub_diag by lia.
Qed.

Lemma wf_store_put st s k (t : tag U) : wf_store st → wf_store (put s k t st).
Proof.
  intros Hwf. destruct s as [j|]; [|done]. intros i sc q Hi Hq. simpl in Hi.
  destruct (decide (j = i)) as [->|Hne].
  - rewrite list_lookup_alter_eq in Hi.
    destruct (st !! i) as [sc0|] eqn:Hsc; [|done].
    simpl in Hi. injection Hi as <-. by eapply Hwf.
  - rewrite list_lookup_alter_ne in Hi by done. by eapply Hwf.
Qed.

Lemma length_put st s k (t : tag U) : length (put s k t st) = length st.
Proof. destruct s; [apply length_alter|done]. Qed.

Lemma wf_store_putIfAbsent st s k v :
  wf_store st → wf_store (putIfAbsent s k v st).
Proof.
  intros Hwf. unfold putIfAbsent.
  destruct (tags_of st s !! k); [done|by apply wf_store_put].
Qed.

Lemma length_putIfAbsent st s k v : length (putIfAbsent s k v st) = length st.
Proof.
  unfold putIfAbsent. destruct (tags_of st s !! k); [done|apply length_put].
Qed.

Lemma enter_scope_eq st p name :
  wf_store st → valid_scope st p →
  enter_scope p name st =
    (length st,
     st ++ [MkScope p (enter_tags name (tags_of st p !! "root_op"))]).
Proof.
  intros Hwf Hp. unfold enter_scope, enterScope. f_equal.
  assert (Hput : put (Some (length st)) "op" (Static (AStr name))
                   (st ++ [MkScope p ∅])
                 = st ++ [MkScope p {[ "op" := Static (AStr name) ]}]).
  { simpl. replace (length st) with (length st + 0) at 1 by lia.
    by rewrite alter_app_r. }
  rewrite Hput. unfold putIfAbsent.
  rewrite tags_of_snoc by done. simpl.
  rewrite lookup_union_r by done.
  destruct (tags_of st p !! "root_op") as [t|]; [done|]. simpl.
  replace (length st) with (length st + 0) at 1 by lia.
  by rewrite alter_app_r.
Qed.

(** *** Each operation, on a valid handle *)

Lemma Enter_eq name W :
  wf_store (store W) →
  Enter name W =
    (length (ops W),
     set_ops (ops W ++ [MkOp (Some (length (store W))) None])
       (set_store (store W ++ [MkScope None (enter_tags name None)]) W)).
Proof.
  intros Hwf. unfold Enter. rewrite enter_scope_eq by done.
  unfold tags_of. by rewrite merged_None, lookup_empty.
Qed.

Lemma op_Enter_eq o name W h :
  wf W → ops W !! o = Some h →
  op_Enter o name W =
    Some (length (ops W),
          set_ops (ops W ++ [MkOp (Some (length (store W))) None])
            (set_store
               (store W ++
                  [MkScope (ctx h)
                     (enter_tags name
                        (tags_of (store W) (ctx h) !! "root_op"))]) W)).
Proof.
  intros [Hwf Hops] Ho. unfold op_Enter. rewrite Ho.
  cbv beta iota delta [mbind option_bind].
  by rewrite enter_scope_eq by eauto.
Qed.

Lemma op_Exit_None o W : ops W !! o = None → op_Exit o W = None.
Proof.
  intros Ho. unfold op_Exit, exit_pop.
  destruct (reporters W); simpl; by rewrite Ho.
Qed.

Lemma op_Exit_Some o W x :
  op_Exit o W = Some x → ∃ h, ops W !! o = Some h.
Proof.
  intros Hx. destruct (ops W !! o) eqn:Ho; [eauto|].
  by rewrite op_Exit_None in Hx.
Qed.

(** *** Frame: what a call leaves alone *)

Lemma Enter_shape name W :
  ∃ (i : nat) st, Enter name W =
    (length (ops W), set_ops (ops W ++ [MkOp (Some i) None]) (set_store st W)).
Proof. unfold Enter. destruct (enter_scope _ _ _) as [s st]. eauto. Qed.

Lemma op_Enter_shape o name W x :
  op_Enter o name W = Some x →
  ∃ (i : nat) st, x =
    (length (ops W), set_ops (ops W ++ [MkOp (Some i) None]) (set_store st W)).
Proof.
  unfold op_Enter. destruct (ops W !! o) as [h|]; [|done].
  cbv beta iota delta [mbind option_bind].
  destruct (enter_scope _ _ _) as [s st]. intros [= <-]. eauto.
Qed.

Lemma put_ctx_shape o k (t : tag U) W x :
  put_ctx o k t W = Some x → ∃ st, x = (o, set_store st W).
Proof.
  unfold put_ctx. destruct (ops W !! o) as [h|]; [|done].
  intros [= <-]. eauto.
Qed.

Lemma op_Go_shape o (fn : Task) W W' :
  op_Go o fn W = Some W' → ∃ sp, W' = set_spawned sp W.
Proof.
  unfold op_Go. destruct (ops W !! o) as [h|]; [|done].
  intros [= <-]. eauto.
Qed.

Lemma op_FailOnError_Some o (e : err) W x :
  op_FailOnError o (Some e) W = Some x →
  ∃ h, ops W !! o = Some h ∧
       x = (Some e, set_ops (<[o := MkOp (ctx h) (Some e)]> (ops W)) W).
Proof.
  unfold op_FailOnError. destruct (ops W !! o) as [h|]; [|done].
  intros [= <-]. eauto.
Qed.

Lemma fmap_snd_Some {A B} (x : option (A * B)) (b : B) :
  snd <$> x = Some b → ∃ a, x = Some (a, b).
Proof. destruct x as [[a b']|]; [|done]. intros [= <-]. eauto. Qed.

(** No call touches a handle other than [FailOnError] with an error that
    is not nil, which replaces the failure of its receiver; the scope of a
    handle never changes. *)
Lemma exec_ops c W W' o h :
  exec c W = Some W' → ops W !! o = Some h →
  ops W' !! o = Some (MkOp (ctx h) (latched c o (failure h))).
Proof.
  intros Hc Ho. assert (Hh : MkOp (ctx h) (failure h) = h) by by destruct h.
  destruct c as [name|o' name|o' fn|o'|o' k v|o' k g|o' e|r];
    cbn [exec latched] in *; rewrite ?Hh.
  - destruct (Enter_shape name W) as (s & st & HE). rewrite HE in Hc.
    injection Hc as <-. simpl. by apply lookup_app_l_Some.
  - apply fmap_snd_Some in Hc as [a Hc].
    apply op_Enter_shape in Hc as (s & st & [= -> ->]).
    simpl. by apply lookup_app_l_Some.
  - by apply op_Go_shape in Hc as (sp & ->).
  - apply fmap_snd_Some in Hc as [a Hx].
    destruct (op_Exit_Some _ _ _ Hx) as [h' Ho'].
    destruct (op_Exit_spec _ _ _ Ho') as (W2 & Hx2 & _ & _ & _ & Hops & _).
    rewrite Hx in Hx2. injection Hx2 as _ <-.
    rewrite Hops. by apply lookup_app_l_Some.
  - apply fmap_snd_Some in Hc as [a Hc].
    by apply put_ctx_shape in Hc as (st & [= -> ->]).
  - apply fmap_snd_Some in Hc as [a Hc].
    by apply put_ctx_shape in Hc as (st & [= -> ->]).
  - apply fmap_snd_Some in Hc as [a Hc]. destruct e as [e|].
    + apply op_FailOnError_Some in Hc as (h' & Ho' & [= -> ->]). simpl.
      destruct (decide (o' = o)) as [->|Hne].
      * rewrite list_lookup_insert_eq by (by eapply lookup_lt_Some).
        congruence.
      * by rewrite list_lookup_insert_ne, Hh by done.
    + injection Hc as _ <-. by rewrite Hh.
  - by injection Hc as <-.
Qed.

(** The registry grows by what the call registers, and by nothing else. *)
Lemma exec_reporters c W W' :
  exec c W = Some W' → reporters W' = reporters W ++ registered c.
Proof.
  intros Hc.
  destruct c as [name|o' name|o' fn|o'|o' k v|o' k g|o' e|r];
    cbn [exec registered] in *; rewrite ?app_nil_r.
  - destruct (Enter_shape name W) as (s & st & HE). rewrite HE in Hc.
    by injection Hc as <-.
  - apply fmap_snd_Some in Hc as [a Hc].
    by apply op_Enter_shape in Hc as (s & st & [= -> ->]).
  - by apply op_Go_shape in Hc as (sp & ->).
  - apply fmap_snd_Some in Hc as [a Hx].
    destruct (op_Exit_Some _ _ _ Hx) as [h' Ho'].
    destruct (op_Exit_spec _ _ _ Ho') as (W2 & Hx2 & Hr & _).
    rewrite Hx in Hx2. by injection Hx2 as _ <-.
  - apply fmap_snd_Some in Hc as [a Hc].
    by apply put_ctx_shape in Hc as (st & [= -> ->]).
  - apply fmap_snd_Some in Hc as [a Hc].
    by apply put_ctx_shape in Hc as (st & [= -> ->]).
  - apply fmap_snd_Some in Hc as [a Hc]. destruct e as [e|].
    + by apply op_FailOnError_Some in Hc as (h' & Ho' & [= -> ->]).
    + by injection Hc as _ <-.
  - by injection Hc as <-.
Qed.

Lemma run_reporters_registry cs : ∀ W W',
  run cs W = Some W' → reporters W' = reporters W ++ concat (registered <$> cs).
Proof.
  induction cs as [|c cs IH]; intros W W' Hrun; simpl in *.
  - injection Hrun as <-. by rewrite app_nil_r.
  - destruct (exec c W) as [W1|] eqn:Hc; [|done]. simpl in Hrun.
    rewrite (IH _ _ Hrun), (exec_reporters _ _ _ Hc). by rewrite app_assoc.
Qed.

Lemma run_ops cs : ∀ W W' o h,
  run cs W = Some W' → ops W !! o = Some h →
  ops W' !! o = Some (MkOp (ctx h) (foldl (λ f c, latched c o f) (failure h) cs)).
Proof.
  induction cs as [|c cs IH]; intros W W' o h Hrun Ho; simpl in *.
  - injection Hrun as <-. by destruct h.
  - destruct (exec c W) as [W1|] eqn:Hc; [|done]. simpl in Hrun.
    by rewrite (IH _ _ _ _ Hrun (exec_ops _ _ _ _ _ Hc Ho)).
Qed.

(** *** Well-formedness is an invariant *)

Lemma wf_init (u : U) : wf (init u : World U Task).
Proof. split; [intros i sc q Hi|intros o h Ho]; by destruct i || by destruct o. Qed.

Lemma valid_scope_mono st st' s :
  length st ≤ length st' → valid_scope st s → valid_scope st' s.
Proof. intros Hle Hs i Hi. specialize (Hs i Hi). lia. Qed.

Lemma exitScope_valid st s : wf_store st → valid_scope st (exitScope s st).
Proof.
  intros Hwf q Hq. unfold exitScope in Hq.
  destruct s as [i|]; [|done]. simpl in Hq.
  destruct (st !! i) as [sc|] eqn:Hi; [|done]. simpl in Hq.
  assert (q < i) by (by eapply Hwf).
  assert (i < length st) by (by eapply lookup_lt_Some). lia.
Qed.

Lemma wf_alloc W st' h' :
  wf W → wf_store st' → length (store W) ≤ length st' →
  valid_scope st' (ctx h') →
  wf (set_ops (ops W ++ [h']) (set_store st' W)).
Proof.
  intros [Hwf Hops] Hwf' Hle Hh'. split; [done|]. simpl. intros o h Ho.
  apply lookup_app_Some in Ho as [Ho|[_ Ho]].
  - eapply valid_scope_mono; eauto.
  - by apply list_lookup_singleton_Some in Ho as [_ <-].
Qed.

Lemma exec_wf c W W' : wf W → exec c W = Some W' → wf W'.
Proof.
  intros HW Hc. pose proof HW as [Hwf Hops].
  destruct c as [name|o name|o fn|o|o k v|o k g|o e|r]; cbn [exec] in Hc.
  - rewrite Enter_eq in Hc by done. injection Hc as <-. simpl.
    apply wf_alloc; [done|by apply wf_store_snoc| |].
    + rewrite length_app. lia.
    + intros i [= <-]. rewrite length_app. simpl. lia.
  - apply fmap_snd_Some in Hc as [a Hc].
    destruct (ops W !! o) as [h|] eqn:Ho;
      [|by unfold op_Enter in Hc; rewrite Ho in Hc].
    rewrite (op_Enter_eq _ _ _ _ HW Ho) in Hc. injection Hc as _ <-.
    apply wf_alloc; [done|apply wf_store_snoc; eauto| |].
    + rewrite length_app. lia.
    + intros i [= <-]. rewrite length_app. simpl. lia.
  - by apply op_Go_shape in Hc as (sp & ->).
  - apply fmap_snd_Some in Hc as [a Hx].
    destruct (op_Exit_Some _ _ _ Hx) as [h Ho].
    destruct (op_Exit_spec _ _ _ Ho) as (W2 & Hx2 & _ & Hst & _ & Hops2 & _).
    rewrite Hx in Hx2. injection Hx2 as _ <-.
    split; rewrite Hst; [done|]. rewrite Hops2. intros o' h' Ho'.
    apply lookup_app_Some in Ho' as [Ho'|[_ Ho']]; [eauto|].
    apply list_lookup_singleton_Some in Ho' as [_ <-].
    by apply exitScope_valid.
  - apply fmap_snd_Some in Hc as [a Hc]. unfold op_Put, put_ctx in Hc.
    destruct (ops W !! o) as [h|]; [|done]. injection Hc as _ <-.
    split; simpl; [by apply wf_store_put|].
    intros o' h' Ho'. eapply valid_scope_mono; [|eauto].
    by rewrite length_put.
  - apply fmap_snd_Some in Hc as [a Hc]. unfold op_PutDynamic, put_ctx in Hc.
    destruct (ops W !! o) as [h|]; [|done]. injection Hc as _ <-.
    split; simpl; [by apply wf_store_put|].
    intros o' h' Ho'. eapply valid_scope_mono; [|eauto].
    by rewrite length_put.
  - apply fmap_snd_Some in Hc as [a Hc]. destruct e as [e|].
    + apply op_FailOnError_Some in Hc as (h & Ho & [= -> ->]).
      split; [done|]. simpl. intros o' h' Ho'.
      apply list_lookup_insert_Some in Ho' as [(-> & <- & _)|[_ Ho']]; eauto.
      simpl. eauto.
    + by injection Hc as _ <-.
  - by injection Hc as <-.
Qed.

(** *** Exit interleaved with registrations *)

Lemma exit_inv_start W0 h : exit_inv W0 h (AtFlatten (reporters W0), W0).
Proof. by repeat split. Qed.

Lemma exit_inv_step W0 o h x y :
  ops W0 !! o = Some h →
  conc_step o x y → exit_inv W0 h x → exit_inv W0 h y.
Proof.
  intros Ho Hstep Hinv.
  destruct Hstep as [pc W pc' W' Hstep|pc W r].
  - destruct Hinv as (Hpre & Hst & Hinv).
    destruct pc as [|copy|m rest| |a]; simpl in Hstep.
    + done.
    + destruct Hinv as (-> & Hops & Hmaps & Hcalls).
      destruct (reporters W0) as [|r copy] eqn:Hr0.
      * injection Hstep as <- <-. simpl. rewrite Hr0. simpl.
        rewrite app_nil_r. by repeat split.
      * rewrite Hops, Ho in Hstep. simpl in Hstep.
        rewrite AsMap_eq in Hstep. injection Hstep as <- <-.
        simpl. rewrite Hr0. repeat split; try done.
        { by rewrite Hmaps. }
        { rewrite length_app, Hmaps. simpl. lia. }
        exists []. by rewrite app_nil_r.
    + destruct Hinv as (Hops & -> & Hlen & seen & Hsnap & Hcalls).
      destruct rest as [|r rest].
      * injection Hstep as <- <-. rewrite app_nil_r in Hsnap. subst seen.
        by repeat split.
      * destruct (lookup_lt_is_Some_2 _ _ Hlen) as [fl Hfl].
        assert (Ho' : ops W !! o = Some h) by (by rewrite Hops).
        rewrite (invoke1_eq _ _ _ _ _ _ Ho' Hfl) in Hstep.
        injection Hstep as <- <-. simpl. repeat split; try done.
        { by rewrite length_insert. }
        exists (seen ++ [r]). rewrite <- !app_assoc. simpl.
        split; [done|].
        rewrite Hcalls. unfold reports. by rewrite fmap_app, app_assoc.
    + destruct Hinv as (Hops & Hcalls).
      assert (Ho' : ops W !! o = Some h) by (by rewrite Hops).
      rewrite (exit_pop_eq _ _ _ Ho') in Hstep. simpl in Hstep.
      injection Hstep as <- <-. simpl. rewrite Hops, Hst.
      by repeat split.
    + done.
  - destruct Hinv as (Hpre & Hst & Hinv). simpl. split_and!; try done.
    by apply prefix_app_r.
Qed.

Lemma exit_inv_rtc W0 o h x y :
  ops W0 !! o = Some h →
  rtc (conc_step o) x y → exit_inv W0 h x → exit_inv W0 h y.
Proof.
  intros Ho Hrtc. induction Hrtc as [x|x y z Hxy _ IH]; [done|].
  intros Hx. apply IH. by eapply exit_inv_step.
Qed.

(** Before the snapshot is taken, only registrations happen. *)
Lemma before_snapshot o (a : nat) x y :
  rtc (conc_step o) x y → ∀ W, x = (AtSnapshot, W) → y.1 = Returned a →
  ∃ added,
    rtc (conc_step o) (AtSnapshot, W) (AtSnapshot, register_all added W) ∧
    rtc (conc_step o)
      (AtFlatten (reporters (register_all added W)), register_all added W) y.
Proof.
  intros Hrtc. induction Hrtc as [x|x y z Hxy Hyz IH]; intros W -> Hz.
  - done.
  - inversion Hxy as [pc W1 pc' W' Hstep|pc W1 r]; subst.
    + simpl in Hstep. injection Hstep as <- <-. by exists [].
    + destruct (IH _ eq_refl Hz) as (added & Hpre & Hpost).
      exists (r :: added). split; [|done].
      eapply rtc_l; [apply step_register|]. done.
Qed.

(** The function [op_Exit] is the run of the steps with no registration in
    between. *)
Lemma invoke_steps o m rs : ∀ W W',
  invoke o m rs W = Some W' →
  rtc (conc_step o) (AtLoop m rs, W) (AtPop, W').
Proof.
  induction rs as [|r rs IH]; intros W W' Hinv; simpl in Hinv.
  - injection Hinv as <-. by apply rtc_once, step_exit.
  - destruct (invoke1 o m r W) as [W1|] eqn:H1; [|done]. simpl in Hinv.
    eapply rtc_l; [|by apply IH]. apply step_exit. simpl. by rewrite H1.
Qed.

Lemma op_Exit_steps o W (a : nat) W' :
  op_Exit o W = Some (a, W') →
  rtc (conc_step o) (AtSnapshot, W) (Returned a, W').
Proof.
  intros Hx. eapply rtc_l; [by apply step_exit|].
  unfold op_Exit in Hx. destruct (reporters W) as [|r rs] eqn:Hr.
  - simpl in Hx. eapply rtc_l; [by apply step_exit|].
    apply rtc_once, step_exit. simpl. by rewrite Hx.
  - destruct (ops W !! o) as [h|] eqn:Ho; [|done].
    cbv beta iota delta [mbind option_bind] in Hx.
    destruct (AsMap _ _ _ _) as [m Wf] eqn:Hf.
    destruct (invoke o m (r :: rs) Wf) as [W1|] eqn:Hinv; [|done].
    eapply rtc_l.
    { apply step_exit. simpl. rewrite Ho. simpl. by rewrite Hf. }
    etrans; [by apply invoke_steps|].
    apply rtc_once, step_exit. simpl. by rewrite Hx.
Qed.

(** *** Latching *)

Lemma latched_Some c o (e : err) :
  ∃ e', latched c o (Some e) = Some e' ∧
        (e' ≠ e → c = COpFailOnError o (Some e')).
Proof.
  destruct c as [| | | | | |o' [e'|]|]; simpl; try (exists e; by split).
  destruct (decide (o' = o)) as [->|Hne]; [|exists e; by split].
  exists e'. by split.
Qed.

Lemma latched_other c o f :
  (∀ e : err, c ≠ COpFailOnError o (Some e)) → latched c o f = f.
Proof.
  intros Hc. destruct c as [| | | | | |o' [e'|]|]; simpl; try done.
  destruct (decide (o' = o)) as [->|Hne]; [|done]. by destruct (Hc e').
Qed.

Lemma foldl_latched_other cs o f :
  (∀ e : err, COpFailOnError o (Some e) ∉ cs) →
  foldl (λ f c, latched c o f) f cs = f.
Proof.
  revert f. induction cs as [|c cs IH]; intros f Hcs; [done|]. simpl.
  rewrite latched_other.
  - apply IH. intros e He. apply (Hcs e). by right.
  - intros e ->. apply (Hcs e). by left.
Qed.

Lemma op_FailOnError_eq o (e : err) W h :
  ops W !! o = Some h →
  op_FailOnError o (Some e) W =
    Some (Some e, set_ops (<[o := MkOp (ctx h) (Some e)]> (ops W)) W).
Proof. intros Ho. unfold op_FailOnError. by rewrite Ho. Qed.

(** C9. Frame of the calls that do not record a failure.  [Enter] (both
    forms), [Put], [PutDynamic] and [Go] leave the failure of every
    handle as it was, and so does every call that is not [FailOnError] on
    that handle with an error that is not nil; that call does replace
    it. *)
Theorem failure_frame W o h :
  ops W !! o = Some h →
  (∀ name, failure <$> ops (Enter name W).2 !! o = Some (failure h)) ∧
  (∀ o' name x, op_Enter o' name W = Some x →
     failure <$> ops x.2 !! o = Some (failure h)) ∧
  (∀ o' k v x, op_Put o' k v W = Some x →
     x.1 = o' ∧ failure <$> ops x.2 !! o = Some (failure h)) ∧
  (∀ o' k g x, op_PutDynamic o' k g W = Some x →
     x.1 = o' ∧ failure <$> ops x.2 !! o = Some (failure h)) ∧
  (∀ o' (fn : Task) W', op_Go o' fn W = Some W' →
     failure <$> ops W' !! o = Some (failure h)) ∧
  (∀ c W', exec c W = Some W' →
     (∀ e : err, c ≠ COpFailOnError o (Some e)) →
     failure <$> ops W' !! o = Some (failure h)) ∧
  (∀ (e : err) x, op_FailOnError o (Some e) W = Some x →
     failure <$> ops x.2 !! o = Some (Some e)).
Proof.
  intros Ho.
  assert (Hgen : ∀ c W', exec c W = Some W' →
            (∀ e : err, c ≠ COpFailOnError o (Some e)) →
            failure <$> ops W' !! o = Some (failure h)).
  { intros c W' Hc Hne. rewrite (exec_ops _ _ _ _ _ Hc Ho). simpl.
    by rewrite latched_other. }
  split_and!.
  - intros name. by apply (Hgen (CEnter name)).
  - intros o' name [a W'] Hx. apply (Hgen (COpEnter o' name)); [|done].
    cbn [exec]. by rewrite Hx.
  - intros o' k v [a W'] Hx. split.
    { by apply put_ctx_shape in Hx as (st & [= -> _]). }
    apply (Hgen (COpPut o' k v)); [|done]. cbn [exec]. by rewrite Hx.
  - intros o' k g [a W'] Hx. split.
    { by apply put_ctx_shape in Hx as (st & [= -> _]). }
    apply (Hgen (COpPutDynamic o' k g)); [|done]. cbn [exec]. by rewrite Hx.
  - intros o' fn W' Hx. by apply (Hgen (COpGo o' fn)).
  - done.
  - intros e [a W'] Hx.
    assert (Hc : exec (COpFailOnError o (Some e)) W = Some W').
    { cbn [exec]. by rewrite Hx. }
    cbn [snd]. rewrite (exec_ops _ _ _ _ _ Hc Ho). simpl.
    by rewrite decide_True.
Qed.

(** C10. Frame of the registry.  After any sequence of calls the registry
    is the one before, followed by the reporters that the
    [RegisterReporter] calls of the sequence added, in the order of those
    calls; so a sequence without [RegisterReporter], whatever its number of
    [Exit] calls, leaves the registry as it was. *)
Theorem registry_frame (cs : list (call U Task)) W W' :
  run cs W = Some W' →
  reporters W' = reporters W ++ concat (registered <$> cs) ∧
  ((∀ r, CRegisterReporter r ∉ cs) → reporters W' = reporters W).
Proof.
  intros Hrun. pose proof (run_reporters_registry _ _ _ Hrun) as Hr.
  split; [done|]. intros Hno. rewrite Hr.
  assert (Hnil : concat (registered <$> cs) = []); [|by rewrite Hnil, app_nil_r].
  clear Hr Hrun. induction cs as [|c cs IH]; [done|].
  rewrite fmap_cons. cbn [concat].
  rewrite IH by (intros r Hin; apply (Hno r); by right).
  rewrite app_nil_r. destruct c; try done.
  destruct (Hno r). by left.
Qed.

(** *** Exit, claim by claim *)

Lemma register_all_eq rs : ∀ W,
  register_all rs W = set_reporters (reporters W ++ rs) W.
Proof.
  unfold register_all.
  induction rs as [|r rs IH]; intros W; simpl.
  - rewrite app_nil_r. by destruct W.
  - rewrite IH. unfold set_reporters. simpl. by rewrite <- app_assoc.
Qed.

(** C4. No observer, no work.  When the registry is empty, [Exit] returns a
    new handle on the scope one level up and does nothing else: no dynamic
    value is evaluated, no map is built, no reporter is invoked, and the
    user state, the scopes and the registry are as before. *)
Theorem no_observer_noop W o h :
  ops W !! o = Some h → reporters W = [] →
  ∃ W', op_Exit o W = Some (length (ops W), W') ∧
    ops W' = ops W ++ [MkOp (exitScope (ctx h) (store W)) None] ∧
    evals W' = evals W ∧ user W' = user W ∧ maps W' = maps W ∧
    calls W' = calls W ∧ store W' = store W ∧ spawned W' = spawned W ∧
    reporters W' = [] ∧
    (wf W → wf W').
Proof.
  intros Ho Hr. eexists. split; [by apply op_Exit_silent|].
  simpl. split_and!; try done.
  intros HW. apply (exec_wf (COpExit o) W); [done|].
  cbn [exec]. by rewrite (op_Exit_silent _ _ _ Ho Hr).
Qed.

(** C5. [Exit] returns a new handle, at an address that was free before and
    so is not the receiver, on the scope one level up and with no failure,
    whatever the failure of the receiver; every handle that existed,
    the receiver and its parents among them, is left as it was. *)
Theorem exit_fresh_handle W o h :
  ops W !! o = Some h →
  ∃ (a : nat) W', op_Exit o W = Some (a, W') ∧
    a ≠ o ∧ ops W !! a = None ∧
    ops W' !! a = Some (MkOp (exitScope (ctx h) (store W)) None) ∧
    (∀ o' h', ops W !! o' = Some h' → ops W' !! o' = Some h').
Proof.
  intros Ho.
  destruct (op_Exit_spec _ _ _ Ho) as (W' & Hx & _ & _ & _ & Hops & _).
  exists (length (ops W)), W'. split_and!; try done.
  - apply lookup_lt_Some in Ho. lia.
  - by apply lookup_ge_None.
  - by rewrite Hops, lookup_app_r, Nat.sub_diag by lia.
  - intros o' h' Ho'. rewrite Hops. by apply lookup_app_l_Some.
Qed.

(** C8. Registration order.  [RegisterReporter] appends, and an [Exit] that
    finds a registry that is not empty invokes its reporters from the first
    registered to the last, each once, with the failure of the handle and
    the address of the one flattened map; the calls are made before [Exit]
    returns, and the user state then is what the reporters, run in that
    order, made of the state left by the flatten. *)
Theorem registration_order W rs o h :
  ops W !! o = Some h → reporters W ++ rs ≠ [] →
  reporters (register_all rs W) = reporters W ++ rs ∧
  ∃ W', op_Exit o (register_all rs W) = Some (length (ops W), W') ∧
    calls W' =
      calls W ++ reports (failure h) (length (maps W)) (reporters W ++ rs) ∧
    let x := read_tags (tags_of (store W) (ctx h)) (user W) (evals W) in
    let y := run_reporters (failure h) (reporters W ++ rs)
               (MkFlat x.1.1 (failure h), x.1.2) in
    maps W' = maps W ++ [y.1] ∧ user W' = y.2.
Proof.
  intros Ho Hne. rewrite register_all_eq. split; [done|].
  set (W1 := set_reporters _ W).
  assert (Ho1 : ops W1 !! o = Some h) by done.
  destruct (op_Exit_spec _ _ _ Ho1) as (W' & Hx & _ & _ & _ & _ & Hc).
  destruct (op_Exit_reporting _ _ _ Ho1 Hne) as (W'' & Hx' & Hm & Hu & _).
  rewrite Hx in Hx'. injection Hx' as <-.
  exists W'. by split_and!.
Qed.

(** C3, as the code has it.  An [Exit] that finds a registry that is not
    empty builds one map, at an address that was free before, and passes
    that one address to every reporter; the maps built earlier are left
    as they were; each reporter reads the map as the reporter before it
    left it. *)
Theorem one_map_per_exit W o h :
  ops W !! o = Some h → reporters W ≠ [] →
  ∃ W', op_Exit o W = Some (length (ops W), W') ∧
    maps W !! length (maps W) = None ∧
    (∀ r f (m : nat), (r, f, m) ∈ drop (length (calls W)) (calls W') →
       m = length (maps W)) ∧
    let x := read_tags (tags_of (store W) (ctx h)) (user W) (evals W) in
    maps W' =
      maps W ++ [(run_reporters (failure h) (reporters W)
                    (MkFlat x.1.1 (failure h), x.1.2)).1].
Proof.
  intros Ho Hne.
  destruct (op_Exit_spec _ _ _ Ho) as (W' & Hx & _ & _ & _ & _ & Hc).
  destruct (op_Exit_reporting _ _ _ Ho Hne) as (W'' & Hx' & Hm & _ & _).
  rewrite Hx in Hx'. injection Hx' as <-.
  exists W'. split_and!; try done.
  - by apply lookup_ge_None.
  - intros r f m. rewrite Hc, drop_app_length. unfold reports.
    intros Hin. apply list_elem_of_fmap in Hin as (r' & [= _ _ ->] & _).
    done.
Qed.

(** *** Enter *)

Lemma enter_tags_op name (inh : option (tag U)) :
  enter_tags name inh !! "op" = Some (Static (AStr name)).
Proof.
  destruct inh; simpl; [by rewrite lookup_singleton_eq|].
  by rewrite lookup_insert_ne, lookup_singleton_eq.
Qed.

Lemma enter_tags_root_op name (inh : option (tag U)) :
  enter_tags name inh !! "root_op" =
    match inh with Some _ => None | None => Some (Static (AStr name)) end.
Proof.
  destruct inh; simpl; [by rewrite lookup_singleton_ne|].
  by rewrite lookup_insert_eq.
Qed.

Lemma enter_scope_tags st p name :
  wf_store st → valid_scope st p →
  let inh := tags_of st p !! "root_op" in
  let st' := st ++ [MkScope p (enter_tags name inh)] in
  tags_of st' (Some (length st)) !! "op" = Some (Static (AStr name)) ∧
  tags_of st' (Some (length st)) !! "root_op"
    = Some (default (Static (AStr name)) inh).
Proof.
  intros Hwf Hp inh st'. unfold st'. rewrite tags_of_snoc by done.
  cbn [data parent]. split.
  - apply lookup_union_Some_l, enter_tags_op.
  - destruct inh as [t|] eqn:Hinh.
    + rewrite lookup_union_r by apply (enter_tags_root_op name (Some t)).
      done.
    + apply lookup_union_Some_l, (enter_tags_root_op name None).
Qed.

Lemma Enter_spec W name :
  wf W →
  ∃ W', Enter name W = (length (ops W), W') ∧ wf W' ∧
    ops W' !! length (ops W) = Some (MkOp (Some (length (store W))) None) ∧
    data <$> store W' !! length (store W) = Some (enter_tags name None) ∧
    tags_of (store W') (Some (length (store W))) !! "op"
      = Some (Static (AStr name)) ∧
    tags_of (store W') (Some (length (store W))) !! "root_op"
      = Some (Static (AStr name)).
Proof.
  intros HW. pose proof HW as [Hwf Hops].
  eexists. split; [by apply Enter_eq|]. split_and!.
  - apply (exec_wf (CEnter name) W); [done|]. cbn [exec].
    by rewrite Enter_eq.
  - simpl. by rewrite lookup_app_r, Nat.sub_diag by lia.
  - simpl. by rewrite lookup_app_r, Nat.sub_diag by lia.
  - cbn [store set_ops set_store]. rewrite tags_of_snoc by done.
    apply lookup_union_Some_l, (enter_tags_op name None).
  - cbn [store set_ops set_store]. rewrite tags_of_snoc by done.
    apply lookup_union_Some_l, (enter_tags_root_op name None).
Qed.

Lemma op_Enter_spec W o h name :
  wf W → ops W !! o = Some h →
  let inh := tags_of (store W) (ctx h) !! "root_op" in
  ∃ W', op_Enter o name W = Some (length (ops W), W') ∧ wf W' ∧
    ops W' !! length (ops W) = Some (MkOp (Some (length (store W))) None) ∧
    data <$> store W' !! length (store W) = Some (enter_tags name inh) ∧
    tags_of (store W') (Some (length (store W))) !! "op"
      = Some (Static (AStr name)) ∧
    tags_of (store W') (Some (length (store W))) !! "root_op"
      = Some (default (Static (AStr name)) inh).
Proof.
  intros HW Ho inh. pose proof HW as [Hwf Hops].
  eexists. split; [by apply op_Enter_eq|]. split_and!.
  - apply (exec_wf (COpEnter o name) W); [done|]. cbn [exec].
    by rewrite (op_Enter_eq _ _ _ _ HW Ho).
  - simpl. by rewrite lookup_app_r, Nat.sub_diag by lia.
  - simpl. by rewrite lookup_app_r, Nat.sub_diag by lia.
  - simpl. apply enter_scope_tags; eauto.
  - simpl. apply enter_scope_tags; eauto.
Qed.

Lemma AsMap_static (i : nat) f b W k v :
  tags_of (store W) (Some i) !! k = Some (Static v) →
  ∃ x, maps (AsMap (Some i) f b W).2 !! (AsMap (Some i) f b W).1 = Some x ∧
       flat_tags x !! k = Some v.
Proof.
  intros Hk. rewrite AsMap_eq. simpl. eexists. split.
  - by rewrite lookup_app_r, Nat.sub_diag by lia.
  - simpl. by apply read_tags_static.
Qed.

(** C6. Stability of [root_op], override of [op].  After [Enter("A")],
    [.Enter("B")] and [.Enter("C")] the map flattened from the innermost
    handle has [op = "C"] and [root_op = "A"].  In general the scope that
    [Enter] on a handle builds holds [op] set to the new name, and holds
    [root_op] exactly when no scope of the parent chain defines it; seen
    from the new scope, [op] is the new name and [root_op] is the inherited
    one when there is one, the new name otherwise. *)
Theorem root_op_stability W :
  wf W →
  (∃ (a b c sc : nat) W1 W2 W3,
     Enter "A" W = (a, W1) ∧
     op_Enter a "B" W1 = Some (b, W2) ∧
     op_Enter b "C" W2 = Some (c, W3) ∧
     ops W3 !! c = Some (MkOp (Some sc) None) ∧
     ∀ f i, ∃ x,
       maps (AsMap (Some sc) f i W3).2 !! (AsMap (Some sc) f i W3).1 = Some x ∧
       flat_tags x !! "op" = Some (AStr "C") ∧
       flat_tags x !! "root_op" = Some (AStr "A")) ∧
  (∀ o h name, ops W !! o = Some h →
     let inh := tags_of (store W) (ctx h) !! "root_op" in
     ∃ (a sc : nat) W',
       op_Enter o name W = Some (a, W') ∧
       ops W' !! a = Some (MkOp (Some sc) None) ∧
       data <$> store W' !! sc = Some (enter_tags name inh) ∧
       tags_of (store W') (Some sc) !! "op" = Some (Static (AStr name)) ∧
       tags_of (store W') (Some sc) !! "root_op"
         = Some (default (Static (AStr name)) inh)).
Proof.
  intros HW. split.
  - destruct (Enter_spec W "A" HW) as (W1 & HE1 & HW1 & Ho1 & _ & _ & Hr1).
    destruct (op_Enter_spec W1 _ _ "B" HW1 Ho1)
      as (W2 & HE2 & HW2 & Ho2 & _ & _ & Hr2).
    cbn [ctx] in Hr2. rewrite Hr1 in Hr2.
    destruct (op_Enter_spec W2 _ _ "C" HW2 Ho2)
      as (W3 & HE3 & HW3 & Ho3 & _ & Hop3 & Hr3).
    cbn [ctx] in Hr3. rewrite Hr2 in Hr3.
    exists (length (ops W)), (length (ops W1)), (length (ops W2)),
      (length (store W2)), W1, W2, W3.
    split_and!; try done.
    intros f i.
    destruct (AsMap_static (length (store W2)) f i W3 _ _ Hop3)
      as (x & Hx & Hxop).
    destruct (AsMap_static (length (store W2)) f i W3 _ _ Hr3)
      as (x' & Hx' & Hxroot).
    rewrite Hx in Hx'. injection Hx' as <-. by exists x.
  - intros o h name Ho inh.
    destruct (op_Enter_spec W o h name HW Ho)
      as (W' & HE & _ & Ho' & Hd & Hop & Hr).
    by exists (length (ops W)), (length (store W)), W'.
Qed.

(** *** Snapshot isolation *)

(** Registrations never block the thread in [Exit]: after the snapshot,
    and until it has returned, its next step is always defined. *)
Lemma exit_progress W0 o h pc W :
  ops W0 !! o = Some h → exit_inv W0 h (pc, W) →
  (∃ a : nat, pc = Returned a) ∨ is_Some (exit_step o pc W).
Proof.
  intros Ho (_ & _ & Hinv). destruct pc as [|copy|m rest| |a]; simpl.
  - done.
  - right. destruct copy as [|r copy]; [done|].
    destruct Hinv as (_ & -> & _). rewrite Ho. simpl.
    by destruct (AsMap _ _ _ _).
  - right. destruct rest as [|r rest]; [done|].
    destruct Hinv as (Hops & -> & Hlen & _).
    destruct (lookup_lt_is_Some_2 _ _ Hlen) as [fl Hfl].
    assert (Ho' : ops W !! o = Some h) by (by rewrite Hops).
    by rewrite (invoke1_eq _ _ _ _ _ _ Ho' Hfl).
  - right. destruct Hinv as (Hops & _).
    assert (Ho' : ops W !! o = Some h) by (by rewrite Hops).
    by rewrite (exit_pop_eq _ _ _ Ho').
  - left. by exists a.
Qed.

(** And a complete run exists from every world where the handle is
    valid. *)
Lemma exit_can_return W o h :
  ops W !! o = Some h →
  ∃ W', rtc (conc_step o) (AtSnapshot, W) (Returned (length (ops W)), W').
Proof.
  intros Ho. destruct (op_Exit_spec _ _ _ Ho) as (W' & Hx & _).
  exists W'. by apply op_Exit_steps.
Qed.

Lemma conc_exit_calls W o h (a : nat) W' :
  ops W !! o = Some h →
  rtc (conc_step o) (AtSnapshot, W) (Returned a, W') →
  ∃ added later,
    rtc (conc_step o)
      (AtFlatten (reporters W ++ added), register_all added W)
      (Returned a, W') ∧
    reporters W' = reporters W ++ added ++ later ∧
    calls W' =
      calls W ++ reports (failure h) (length (maps W)) (reporters W ++ added) ∧
    a = length (ops W) ∧
    ops W' = ops W ++ [MkOp (exitScope (ctx h) (store W)) None].
Proof.
  intros Ho Hrtc.
  destruct (before_snapshot o a _ _ Hrtc W eq_refl eq_refl)
    as (added & _ & Hpost).
  rewrite register_all_eq in Hpost. simpl in Hpost.
  set (Ws := set_reporters (reporters W ++ added) W) in *.
  assert (Hos : ops Ws !! o = Some h) by done.
  pose proof (exit_inv_rtc Ws o h _ _ Hos Hpost (exit_inv_start Ws h))
    as (Hpre & _ & Ha & Hops & Hcalls).
  destruct Hpre as [later Hlater]. exists added, later.
  rewrite register_all_eq. split_and!; try done.
  rewrite Hlater. subst Ws. simpl. by rewrite <- app_assoc.
Qed.

Lemma run_sched_sound o (sch : list (option (Reporter U))) :
  ∀ x y : exit_pc U * World U Task,
  run_sched o sch x = Some y → rtc (conc_step o) x y.
Proof.
  induction sch as [|[r|] sch IH]; intros [pc W] y Hrun; simpl in Hrun.
  - by injection Hrun as <-.
  - eapply rtc_l; [apply (step_register o pc W r)|]. by apply IH.
  - destruct (exit_step o pc W) as [[pc1 W1]|] eqn:Hstep; [|done].
    eapply rtc_l; [by apply step_exit|]. by apply IH.
Qed.

End Proofs.

(** ** The theorems at work on the small program *)

(** C3, as the claim states it, fails.  With [mark] registered before
    [probe], one [Exit] passes the same address to both and [probe] finds
    in its map what [mark] wrote there; registered alone, [probe] finds
    nothing. *)
Lemma shared_map_counterexample :
  fst <$> op_Exit 0 (entered [mark; probe]) = Some 1 ∧
  calls ∘ snd <$> op_Exit 0 (entered [mark; probe])
    = Some [(mark, None, 0); (probe, None, 0)] ∧
  user ∘ snd <$> op_Exit 0 (entered [mark; probe]) = Some ["seen"] ∧
  user ∘ snd <$> op_Exit 0 (entered [probe]) = Some ["clean"].
Proof. repeat split; vm_compute; reflexivity. Qed.

Lemma one_map_per_exit_witness :
  ops (entered [mark; probe]) !! 0 = Some root_handle ∧
  reporters (entered [mark; probe]) ≠ [] ∧
  ∃ W' : World (list string) unit,
    op_Exit 0 (entered [mark; probe]) = Some (1, W') ∧
    ∀ r f (m : nat), (r, f, m) ∈ drop 0 (calls W') → m = 0.
Proof.
  split; [reflexivity|]. split; [discriminate|].
  destruct (one_map_per_exit (entered [mark; probe]) 0 root_handle eq_refl)
    as (W' & Hx & _ & Hm & _); [discriminate|].
  exists W'. split; [exact Hx|exact Hm].
Defined.

Lemma no_observer_noop_witness :
  ops (ticking []) !! 0 = Some root_handle ∧
  reporters (ticking []) = [] ∧
  ∃ W' : World (list string) unit,
    op_Exit 0 (ticking []) = Some (1, W') ∧
    evals W' = [] ∧ user W' = [] ∧ maps W' = [] ∧ calls W' = [].
Proof.
  split; [reflexivity|]. split; [reflexivity|].
  destruct (no_observer_noop (ticking []) 0 root_handle eq_refl eq_refl)
    as (W' & Hx & _ & He & Hu & Hm & Hc & _).
  exists W'. repeat split; assumption.
Defined.

Lemma exit_fresh_handle_witness :
  ops (entered [say "O1"]) !! 0 = Some root_handle ∧
  ∃ (a : nat) (W' : World (list string) unit),
    op_Exit 0 (entered [say "O1"]) = Some (a, W') ∧ a ≠ 0 ∧
    ops W' !! a = Some (MkOp None None).
Proof.
  split; [reflexivity|].
  destruct (exit_fresh_handle (entered [say "O1"]) 0 root_handle eq_refl)
    as (a & W' & Hx & Ha & _ & Hnew & _).
  exists a, W'. repeat split; assumption.
Defined.

Lemma root_op_stability_witness :
  wf start ∧
  ∃ (a b c sc : nat) (W1 W2 W3 : World (list string) unit),
    Enter "A" start = (a, W1) ∧
    op_Enter a "B" W1 = Some (b, W2) ∧
    op_Enter b "C" W2 = Some (c, W3) ∧
    ops W3 !! c = Some (MkOp (Some sc) None) ∧
    ∃ x,
      maps (AsMap (Some sc) None true W3).2
        !! (AsMap (Some sc) None true W3).1 = Some x ∧
      flat_tags x !! "op" = Some (AStr "C") ∧
      flat_tags x !! "root_op" = Some (AStr "A").
Proof.
  split; [apply wf_init|].
  destruct (root_op_stability start (wf_init []))
    as [(a & b & c & sc & W1 & W2 & W3 & H1 & H2 & H3 & Hc & Hflat) _].
  exists a, b, c, sc, W1, W2, W3. repeat split; try assumption.
  exact (Hflat None true).
Defined.

Lemma registration_order_witness :
  ops (entered []) !! 0 = Some root_handle ∧
  ∃ W' : World (list string) unit,
    op_Exit 0 (register_all [say "first"; say "second"] (entered []))
      = Some (1, W') ∧
    calls W' = [(say "first", None, 0); (say "second", None, 0)] ∧
    user W' = ["first"; "second"].
Proof.
  split; [reflexivity|].
  destruct (registration_order (entered []) [say "first"; say "second"]
              0 root_handle eq_refl)
    as (_ & W' & Hx & Hc & _ & Hu); [discriminate|].
  exists W'. split; [exact Hx|]. split; [exact Hc|exact Hu].
Defined.

Lemma failure_frame_witness :
  ops (entered []) !! 0 = Some root_handle ∧
  failure <$> ops (Enter "B" (entered [])).2 !! 0 = Some None ∧
  ∀ x, op_FailOnError 0 (Some (Err "boom")) (entered []) = Some x →
       failure <$> ops x.2 !! 0 = Some (Some (Err "boom")).
Proof.
  split; [reflexivity|].
  destruct (failure_frame (entered []) 0 root_handle eq_refl)
    as (HE & _ & _ & _ & _ & _ & HF).
  split; [exact (HE "B")|exact (HF (Err "boom"))].
Defined.

Lemma registry_frame_witness :
  run busy_calls (entered []) = Some after_busy ∧
  reporters after_busy = [say "O1"; say "O2"].
Proof.
  assert (Hrun : run busy_calls (entered []) = Some after_busy)
    by (vm_compute; reflexivity).
  split; [exact Hrun|].
  exact (proj1 (registry_frame busy_calls (entered []) after_busy Hrun)).
Defined.

(** ** Further properties of the package *)

Section More.

Context {U Task : Type}.
Implicit Types (W : World U Task) (rs : list (Reporter U)) (r : Reporter U).
Implicit Types (h : op) (f : error) (c : call U Task).

(** *** Registration commutes with the steps of Exit after the snapshot *)

Lemma AsMap_register (s : option nat) f b W r :
  AsMap s f b (RegisterReporter r W)
  = prod_map id (RegisterReporter r) (AsMap s f b W).
Proof. by rewrite !AsMap_eq. Qed.

Lemma invoke1_register o (m : nat) r' W r :
  invoke1 o m r' (RegisterReporter r W)
  = RegisterReporter r <$> invoke1 o m r' W.
Proof.
  unfold invoke1. simpl. destruct (ops W !! o) as [h|]; [|done]. simpl.
  destruct (maps W !! m) as [fl|]; [|done]. simpl.
  by destruct (r' (failure h) fl (user W)).
Qed.

Lemma invoke_register o (m : nat) rs : ∀ W r,
  invoke o m rs (RegisterReporter r W)
  = RegisterReporter r <$> invoke o m rs W.
Proof.
  induction rs as [|r' rs IH]; intros W r; [done|]. simpl.
  rewrite invoke1_register.
  destruct (invoke1 o m r' W) as [W1|]; [|done]. simpl. apply IH.
Qed.

Lemma exit_pop_register o W r :
  exit_pop o (RegisterReporter r W)
  = prod_map id (RegisterReporter r) <$> exit_pop o W.
Proof.
  unfold exit_pop. simpl. by destruct (ops W !! o) as [h|].
Qed.

Lemma finish_register o (pc : exit_pc U) W r :
  pc ≠ AtSnapshot →
  finish o pc (RegisterReporter r W)
  = prod_map id (RegisterReporter r) <$> finish o pc W.
Proof.
  intros Hpc. destruct pc as [|[|r' copy]|m rest| |a]; [done|..].
  - simpl. apply exit_pop_register.
  - cbn [finish]. change (ops (RegisterReporter r W)) with (ops W).
    destruct (ops W !! o) as [h|]; [|done].
    cbv beta iota delta [mbind option_bind].
    rewrite AsMap_register. destruct (AsMap _ _ _ W) as [m Wf].
    cbn [prod_map fst snd id]. rewrite invoke_register.
    destruct (invoke o m (r' :: copy) Wf) as [W1|]; [|done].
    apply exit_pop_register.
  - cbn [finish]. rewrite invoke_register.
    destruct (invoke o m rest W) as [W1|]; [|done].
    apply exit_pop_register.
  - apply exit_pop_register.
  - done.
Qed.

Lemma finish_step o (pc pc' : exit_pc U) W W' :
  exit_step o pc W = Some (pc', W') → finish o pc W = finish o pc' W'.
Proof.
  intros Hstep. destruct pc as [|[|r copy]|m [|r rest]| |a]; simpl in Hstep.
  - by injection Hstep as <- <-.
  - by injection Hstep as <- <-.
  - cbn [finish]. destruct (ops W !! o) as [h|]; [|done].
    cbv beta iota delta [mbind option_bind] in *.
    destruct (AsMap _ _ _ W) as [m Wf]. by injection Hstep as <- <-.
  - by injection Hstep as <- <-.
  - cbn [finish invoke].
    destruct (invoke1 o m r W) as [W1|]; [|done].
    by injection Hstep as <- <-.
  - cbn [finish]. destruct (exit_pop o W) as [[a W1]|]; [|done].
    by injection Hstep as <- <-.
  - done.
Qed.

Lemma exit_step_not_snapshot o (pc pc' : exit_pc U) W W' :
  exit_step o pc W = Some (pc', W') → pc' ≠ AtSnapshot.
Proof.
  intros Hstep ->. destruct pc as [|[|r copy]|m [|r rest]| |a];
    simpl in Hstep; try done.
  - destruct (ops W !! o) as [h|]; [|done]. simpl in Hstep.
    by destruct (AsMap _ _ _ W).
  - by destruct (invoke1 o m r W).
  - by destruct (exit_pop o W) as [[??]|].
Qed.

Lemma after_snapshot_serial o (a : nat) (x y : exit_pc U * World U Task) :
  rtc (conc_step o) x y → x.1 ≠ AtSnapshot → y.1 = Returned a →
  ∃ later W1, finish o x.1 x.2 = Some (a, W1) ∧ y.2 = register_all later W1.
Proof.
  intros Hrtc. induction Hrtc as [[pc W]|x y z Hxy _ IH]; intros Hx Hz.
  - simpl in *. subst pc. by exists [], W.
  - destruct Hxy as [pc W pc' W' Hstep|pc W r]; simpl in *.
    + destruct (IH (exit_step_not_snapshot _ _ _ _ _ Hstep) Hz)
        as (later & W1 & Hfin & Heq).
      exists later, W1. by rewrite (finish_step _ _ _ _ _ Hstep).
    + destruct (IH Hx Hz) as (later & W1 & Hfin & Heq).
      rewrite finish_register in Hfin by done.
      destruct (finish o pc W) as [[a' W0]|]; [|done].
      injection Hfin as -> <-.
      exists (r :: later), W0. by split.
Qed.

(** X1.  Every run of [o.Exit()] interleaved with registrations ends in the
    world that a serial execution gives: some registrations first, then
    the whole of [Exit] with nothing in between, then the registrations
    that are left. *)
Theorem exit_serializable W o (a : nat) W' :
  rtc (conc_step o) (AtSnapshot, W) (Returned a, W') →
  ∃ added later W1,
    op_Exit o (register_all added W) = Some (a, W1) ∧
    W' = register_all later W1.
Proof.
  intros Hrtc.
  destruct (before_snapshot o a _ _ Hrtc W eq_refl eq_refl)
    as (added & _ & Hpost).
  destruct (after_snapshot_serial o a _ _ Hpost) as (later & W1 & Hfin & Heq);
    [done..|].
  by exists added, later, W1.
Qed.

(** *** A child and its parent *)

Lemma op_Enter_total o name W h :
  ops W !! o = Some h →
  ∃ (i : nat) st,
    op_Enter o name W =
      Some (length (ops W),
            set_ops (ops W ++ [MkOp (Some i) None]) (set_store st W)).
Proof.
  intros Ho. unfold op_Enter. rewrite Ho.
  cbv beta iota delta [mbind option_bind].
  destruct (enter_scope _ _ _) as [i st]. by exists i, st.
Qed.

(** *** Callbacks run inside Exit only *)

(** X4.  A call that is not [Exit] invokes no reporter, evaluates no dynamic
    value, builds no map and leaves the user state alone. *)
Theorem callbacks_only_in_exit c W W' :
  exec c W = Some W' → (∀ o, c ≠ COpExit o) →
  calls W' = calls W ∧ evals W' = evals W ∧ user W' = user W ∧
  maps W' = maps W.
Proof.
  intros Hc Hne.
  destruct c as [name|o' name|o' fn|o'|o' k v|o' k g|o' e|r];
    cbn [exec] in Hc.
  - destruct (Enter_shape name W) as (i & st & HE). rewrite HE in Hc.
    by injection Hc as <-.
  - apply fmap_snd_Some in Hc as [a Hc].
    by apply op_Enter_shape in Hc as (i & st & [= -> ->]).
  - by apply op_Go_shape in Hc as (sp & ->).
  - by destruct (Hne o').
  - apply fmap_snd_Some in Hc as [a Hc].
    by apply put_ctx_shape in Hc as (st & [= -> ->]).
  - apply fmap_snd_Some in Hc as [a Hc].
    by apply put_ctx_shape in Hc as (st & [= -> ->]).
  - apply fmap_snd_Some in Hc as [a Hc]. destruct e as [e|].
    + by apply op_FailOnError_Some in Hc as (h' & Ho' & [= -> ->]).
    + by injection Hc as _ <-.
  - by injection Hc as <-.
Qed.

(** *** Handles are never freed, moved or reused *)

Lemma exec_ops_length c W W' :
  exec c W = Some W' → length (ops W') = length (ops W) + allocs c.
Proof.
  intros Hc.
  destruct c as [name|o' name|o' fn|o'|o' k v|o' k g|o' e|r];
    cbn [exec allocs] in *; rewrite ?Nat.add_0_r.
  - destruct (Enter_shape name W) as (i & st & HE). rewrite HE in Hc.
    injection Hc as <-. simpl. by rewrite length_app.
  - apply fmap_snd_Some in Hc as [a Hc].
    apply op_Enter_shape in Hc as (i & st & [= -> ->]).
    simpl. by rewrite length_app.
  - by apply op_Go_shape in Hc as (sp & ->).
  - apply fmap_snd_Some in Hc as [a Hx].
    destruct (op_Exit_Some _ _ _ Hx) as [h' Ho'].
    destruct (op_Exit_spec _ _ _ Ho') as (W2 & Hx2 & _ & _ & _ & Hops & _).
    rewrite Hx in Hx2. injection Hx2 as _ <-.
    by rewrite Hops, length_app.
  - apply fmap_snd_Some in Hc as [a Hc].
    by apply put_ctx_shape in Hc as (st & [= -> ->]).
  - apply fmap_snd_Some in Hc as [a Hc].
    by apply put_ctx_shape in Hc as (st & [= -> ->]).
  - apply fmap_snd_Some in Hc as [a Hc]. destruct e as [e|].
    + apply op_FailOnError_Some in Hc as (h' & Ho' & [= -> ->]).
      simpl. by rewrite length_insert.
    + by injection Hc as _ <-.
  - by injection Hc as <-.
Qed.

(** X5.  Over any sequence of calls every handle stays at its address, on the
    scope it was made for, and the number of handles grows by one for each
    [Enter] and each [Exit] of the sequence and by nothing else. *)
Theorem handles_persist (cs : list (call U Task)) W W' :
  run cs W = Some W' →
  length (ops W') = length (ops W) + sum_list (allocs <$> cs) ∧
  ∀ o h, ops W !! o = Some h → ctx <$> ops W' !! o = Some (ctx h).
Proof.
  intros Hrun. split.
  - revert W Hrun. induction cs as [|c cs IH]; intros W Hrun;
      cbn [run] in Hrun.
    + injection Hrun as <-. simpl. lia.
    + destruct (exec c W) as [W1|] eqn:Hc; [|done]. simpl in Hrun.
      rewrite (IH _ Hrun), (exec_ops_length _ _ _ Hc), fmap_cons.
      change (sum_list (allocs c :: (allocs <$> cs)))
        with (allocs c + sum_list (allocs <$> cs)). lia.
  - intros o h Ho. by rewrite (run_ops _ _ _ _ _ Hrun Ho).
Qed.

(** *** Registration and the other calls *)

(** X6.  Registering a reporter before or after a call that is neither [Exit]
    nor a registration gives the same world: the registry matters to
    [Exit] alone. *)
Theorem register_commutes c W r :
  (∀ o, c ≠ COpExit o) → (∀ r', c ≠ CRegisterReporter r') →
  exec c (RegisterReporter r W) = RegisterReporter r <$> exec c W.
Proof.
  intros Hx Hr.
  destruct c as [name|o' name|o' fn|o'|o' k v|o' k g|o' e|r'];
    cbn [exec].
  - unfold Enter. change (store (RegisterReporter r W)) with (store W).
    by destruct (enter_scope _ _ _) as [i st].
  - unfold op_Enter. change (ops (RegisterReporter r W)) with (ops W).
    destruct (ops W !! o') as [h|]; [|done].
    cbv beta iota delta [mbind option_bind].
    change (store (RegisterReporter r W)) with (store W).
    by destruct (enter_scope _ _ _) as [i st].
  - unfold op_Go. simpl. by destruct (ops W !! o') as [h|].
  - by destruct (Hx o').
  - unfold op_Put, put_ctx. simpl. by destruct (ops W !! o') as [h|].
  - unfold op_PutDynamic, put_ctx. simpl. by destruct (ops W !! o') as [h|].
  - unfold op_FailOnError. simpl. destruct e as [e|]; [|done].
    by destruct (ops W !! o') as [h|].
  - by destruct (Hr r').
Qed.

(** *** One flatten for each Exit *)

(** X7.  When the registry is not empty, what [Exit] evaluates and builds does
    not depend on how many reporters there are: registering more of them
    gives the same evaluations of dynamic values and again one new map. *)
Theorem exit_flattens_once W o h rs :
  ops W !! o = Some h → reporters W ≠ [] →
  ∃ W1 W2,
    op_Exit o W = Some (length (ops W), W1) ∧
    op_Exit o (register_all rs W) = Some (length (ops W), W2) ∧
    evals W2 = evals W1 ∧
    length (maps W1) = S (length (maps W)) ∧
    length (maps W2) = S (length (maps W)).
Proof.
  intros Ho Hne.
  destruct (op_Exit_reporting _ _ _ Ho Hne) as (W1 & Hx1 & Hm1 & _ & He1).
  rewrite register_all_eq. set (Wr := set_reporters _ W).
  assert (Hor : ops Wr !! o = Some h) by done.
  assert (Hner : reporters Wr ≠ []).
  { simpl. destruct (reporters W); [done|]. done. }
  destruct (op_Exit_reporting _ _ _ Hor Hner) as (W2 & Hx2 & Hm2 & _ & He2).
  exists W1, W2. split_and!; try done.
  - by rewrite He1, He2.
  - rewrite Hm1, length_app. simpl. lia.
  - rewrite Hm2, length_app. simpl. lia.
Qed.

(** *** Enter and Exit, Put and Exit *)

Lemma exitScope_snoc (st : list (Scope U)) (sc : Scope U) :
  exitScope (Some (length st)) (st ++ [sc]) = parent sc.
Proof.
  unfold exitScope. simpl. by rewrite lookup_app_r, Nat.sub_diag by lia.
Qed.

(** X9.  Entering a child and exiting it leads back: the handle that the
    child's [Exit] returns is on the scope of the parent, the parent handle
    is as it was, and the tags seen from that scope are those seen before
    the child was entered. *)
Theorem enter_exit_round_trip W o h name :
  wf W → ops W !! o = Some h →
  ∃ (c p : nat) W1 W2,
    op_Enter o name W = Some (c, W1) ∧
    op_Exit c W1 = Some (p, W2) ∧
    ops W2 !! p = Some (MkOp (ctx h) None) ∧
    ops W2 !! o = Some h ∧
    tags_of (store W2) (ctx h) = tags_of (store W) (ctx h).
Proof.
  intros HW Ho. pose proof HW as [Hwf Hops].
  assert (Hlt : o < length (ops W)) by (by eapply lookup_lt_Some).
  pose proof (op_Enter_eq o name W h HW Ho) as HE.
  set (W1 := set_ops _ (set_store _ W)) in HE.
  assert (Hc : ops W1 !! length (ops W)
               = Some (MkOp (Some (length (store W))) None)).
  { simpl. by rewrite lookup_app_r, Nat.sub_diag by lia. }
  destruct (op_Exit_spec _ _ _ Hc) as (W2 & Hx & _ & Hst & _ & Ho2 & _).
  exists (length (ops W)), (length (ops W1)), W1, W2.
  split_and!; try done.
  - rewrite Ho2. rewrite lookup_app_r, Nat.sub_diag by lia.
    cbn [lookup list_lookup]. do 2 f_equal.
    exact (exitScope_snoc (store W) (MkScope (ctx h) _)).
  - rewrite Ho2. by do 2 apply lookup_app_l_Some.
  - rewrite Hst. simpl. apply tags_of_app; eauto.
Qed.

Lemma tags_of_put st (i : nat) k (t : tag U) :
  wf_store st → i < length st →
  tags_of (put (Some i) k t st) (Some i) !! k = Some t.
Proof.
  intros Hwf Hi. destruct (lookup_lt_is_Some_2 _ _ Hi) as [sc Hsc].
  rewrite (tags_of_Some _ i (set_tag k t sc)).
  - apply lookup_union_Some_l. simpl. by rewrite lookup_insert_eq.
  - by apply wf_store_put.
  - simpl. by rewrite list_lookup_alter_eq, Hsc.
Qed.

(** X10.  A tag put on a handle that has a scope is in the map that the
    handle's [Exit] flattens, together with the failure of the handle: the
    reporters run, in order, on that map. *)
Theorem put_then_exit_reports_tag W o h (i : nat) k v :
  wf W → ops W !! o = Some h → ctx h = Some i → reporters W ≠ [] →
  ∃ W1 W2 fl u,
    op_Put o k v W = Some (o, W1) ∧
    op_Exit o W1 = Some (length (ops W), W2) ∧
    flat_tags fl !! k = Some v ∧ flat_failure fl = failure h ∧
    maps W2 = maps W ++ [(run_reporters (failure h) (reporters W) (fl, u)).1] ∧
    user W2 = (run_reporters (failure h) (reporters W) (fl, u)).2.
Proof.
  intros [Hwf Hops] Ho Hi Hne.
  assert (Hlt : i < length (store W)) by (by apply (Hops o h Ho)).
  set (W1 := set_store (put (ctx h) k (Static v) (store W)) W).
  assert (Ho1 : ops W1 !! o = Some h) by done.
  destruct (op_Exit_reporting _ _ _ Ho1 Hne) as (W2 & Hx & Hm & Hu & _).
  eexists W1, W2, _, _. split_and!; [| exact Hx | | | exact Hm | exact Hu].
  - unfold op_Put, put_ctx. by rewrite Ho.
  - simpl. apply read_tags_static. rewrite Hi. by apply tags_of_put.
  - done.
Qed.

(** *** Levels *)

Lemma run_wf (cs : list (call U Task)) : ∀ W W',
  wf W → run cs W = Some W' → wf W'.
Proof.
  induction cs as [|c cs IH]; intros W W' HW Hrun; cbn [run] in Hrun.
  - by injection Hrun as <-.
  - destruct (exec c W) as [W1|] eqn:Hc; [|done].
    apply (IH W1); [by apply (exec_wf c W)|done].
Qed.

Lemma merged_put_older st (j : nat) k (t : tag U) :
  wf_store st → ∀ n (i : nat), i < j →
  merged n (put (Some j) k t st) (Some i) = merged n st (Some i).
Proof.
  intros Hwf n. induction n as [|n IH]; intros i Hi; [done|]. simpl.
  rewrite list_lookup_alter_ne by lia.
  destruct (st !! i) as [sc|] eqn:Hsc; [|done]. f_equal.
  destruct (parent sc) as [q|] eqn:Hq; [|by rewrite !merged_None].
  assert (q < i) by (by eapply Hwf). apply IH. lia.
Qed.

Lemma tags_of_put_older st (i j : nat) k (t : tag U) :
  wf_store st → i < j →
  tags_of (put (Some j) k t st) (Some i) = tags_of st (Some i).
Proof.
  intros Hwf Hi. unfold tags_of. rewrite length_put.
  by apply merged_put_older.
Qed.

(** X12.  A tag put on a handle, static or dynamic, goes to the level of that
    handle: the tags seen from any scope made before that level, its
    ancestors among them, are as they were. *)
Theorem put_invisible_to_older_scopes W o h (i j : nat) k :
  wf W → ops W !! o = Some h → ctx h = Some j → i < j →
  (∀ v, ∃ W1, op_Put o k v W = Some (o, W1) ∧
     tags_of (store W1) (Some i) = tags_of (store W) (Some i)) ∧
  (∀ g, ∃ W1, op_PutDynamic o k g W = Some (o, W1) ∧
     tags_of (store W1) (Some i) = tags_of (store W) (Some i)).
Proof.
  intros [Hwf _] Ho Hj Hi. split.
  - intros v. eexists. split.
    + unfold op_Put, put_ctx. by rewrite Ho.
    + simpl. rewrite Hj. by apply tags_of_put_older.
  - intros g. eexists. split.
    + unfold op_PutDynamic, put_ctx. by rewrite Ho.
    + simpl. rewrite Hj. by apply tags_of_put_older.
Qed.

Lemma enter_tags_other name (inh : option (tag U)) k :
  k ≠ "op" → k ≠ "root_op" → enter_tags name inh !! k = None.
Proof.
  intros H1 H2. destruct inh; simpl.
  - by rewrite lookup_singleton_ne.
  - by rewrite lookup_insert_ne, lookup_singleton_ne.
Qed.

(** X13.  A tag put on a handle is inherited by a child entered afterwards: the
    map flattened from the child holds it, beside the child's own [op]. *)
Theorem child_inherits_tag W o h (i : nat) k v name :
  wf W → ops W !! o = Some h → ctx h = Some i →
  k ≠ "op" → k ≠ "root_op" →
  ∃ (c sc : nat) W1 W2,
    op_Put o k v W = Some (o, W1) ∧
    op_Enter o name W1 = Some (c, W2) ∧
    ops W2 !! c = Some (MkOp (Some sc) None) ∧
    ∀ f b, ∃ x,
      maps (AsMap (Some sc) f b W2).2 !! (AsMap (Some sc) f b W2).1 = Some x ∧
      flat_tags x !! k = Some v ∧
      flat_tags x !! "op" = Some (AStr name).
Proof.
  intros HW Ho Hi Hk1 Hk2. pose proof HW as [Hwf Hops].
  assert (Hlt : i < length (store W)) by (by apply (Hops o h Ho)).
  set (W1 := set_store (put (ctx h) k (Static v) (store W)) W).
  assert (HP : op_Put o k v W = Some (o, W1)).
  { unfold op_Put, put_ctx. by rewrite Ho. }
  assert (HW1 : wf W1).
  { apply (exec_wf (COpPut o k v) W); [done|]. cbn [exec]. by rewrite HP. }
  assert (Ho1 : ops W1 !! o = Some h) by done.
  pose proof (op_Enter_eq o name W1 h HW1 Ho1) as HE.
  set (W2 := set_ops _ (set_store _ W1)) in HE.
  assert (Htags : tags_of (store W2) (Some (length (store W1)))
                  = enter_tags name (tags_of (store W1) (ctx h) !! "root_op")
                    ∪ tags_of (store W1) (ctx h)).
  { destruct HW1 as [Hwf1 Hops1].
    apply (tags_of_snoc (store W1) (MkScope (ctx h) _)); [done|].
    by apply (Hops1 o h). }
  assert (Hkv : tags_of (store W2) (Some (length (store W1))) !! k
                = Some (Static v)).
  { rewrite Htags, lookup_union_r by (by apply enter_tags_other).
    simpl. rewrite Hi. by apply tags_of_put. }
  assert (Hop : tags_of (store W2) (Some (length (store W1))) !! "op"
                = Some (Static (AStr name))).
  { rewrite Htags. apply lookup_union_Some_l, enter_tags_op. }
  exists (length (ops W1)), (length (store W1)), W1, W2.
  split_and!; try done.
  - simpl. by rewrite lookup_app_r, Nat.sub_diag by lia.
  - intros f b.
    destruct (AsMap_static (length (store W1)) f b W2 _ _ Hkv)
      as (x & Hx & Hxk).
    destruct (AsMap_static (length (store W1)) f b W2 _ _ Hop)
      as (x' & Hx' & Hxop).
    rewrite Hx in Hx'. injection Hx' as <-. by exists x.
Qed.

End More.

(** ** The further properties at work on the small program *)

Lemma wf_entered rs : wf (entered rs).
Proof.
  unfold entered. apply (exec_wf (CEnter "A") (register_all rs start)); [|done].
  rewrite register_all_eq. split.
  - intros i sc q Hi. by destruct i.
  - intros o h Ho. by destruct o.
Qed.

Lemma exit_serializable_witness :
  ∃ added later (W1 : World (list string) unit),
    op_Exit 0 (register_all added (entered [say "O1"])) = Some (1, W1) ∧
    after_race = register_all later W1.
Proof.
  assert (Hrun : run_sched 0 race (AtSnapshot, entered [say "O1"])
                 = Some (Returned 1, after_race))
    by (vm_compute; reflexivity).
  exact (exit_serializable (entered [say "O1"]) 0 1 after_race
           (run_sched_sound _ _ _ _ Hrun)).
Defined.

Lemma callbacks_only_in_exit_witness :
  exec (COpPutDynamic 0 "t" tick) (entered [say "O1"])
    = Some (ticking [say "O1"]) ∧
  evals (ticking [say "O1"]) = [] ∧ user (ticking [say "O1"]) = [].
Proof.
  assert (Hc : exec (COpPutDynamic 0 "t" tick) (entered [say "O1"])
               = Some (ticking [say "O1"]))
    by (vm_compute; reflexivity).
  split; [exact Hc|].
  destruct (callbacks_only_in_exit _ _ _ Hc) as (_ & He & Hu & _).
  { intros o. discriminate. }
  split; [exact He|exact Hu].
Defined.

Lemma handles_persist_witness :
  run busy_calls (entered []) = Some after_busy ∧
  length (ops after_busy) = 3 ∧
  ctx <$> ops after_busy !! 0 = Some (Some 0).
Proof.
  assert (Hrun : run busy_calls (entered []) = Some after_busy)
    by (vm_compute; reflexivity).
  split; [exact Hrun|].
  destruct (handles_persist busy_calls (entered []) after_busy Hrun)
    as [Hlen Hctx].
  split; [exact Hlen|exact (Hctx 0 root_handle eq_refl)].
Defined.

Lemma register_commutes_witness :
  exec (COpPut 0 "k" (AInt 1)) (RegisterReporter (say "O1") (entered []))
  = RegisterReporter (say "O1") <$> exec (COpPut 0 "k" (AInt 1)) (entered []).
Proof.
  apply (register_commutes (COpPut 0 "k" (AInt 1)) (entered []) (say "O1")).
  - intros o. discriminate.
  - intros r'. discriminate.
Defined.

Lemma exit_flattens_once_witness :
  ops (ticking [say "O1"]) !! 0 = Some root_handle ∧
  ∃ W1 W2 : World (list string) unit,
    op_Exit 0 (ticking [say "O1"]) = Some (1, W1) ∧
    op_Exit 0 (register_all [say "O2"; say "O3"] (ticking [say "O1"]))
      = Some (1, W2) ∧
    evals W2 = evals W1.
Proof.
  split; [reflexivity|].
  destruct (exit_flattens_once (ticking [say "O1"]) 0 root_handle
              [say "O2"; say "O3"] eq_refl)
    as (W1 & W2 & H1 & H2 & He & _); [discriminate|].
  exists W1, W2. split; [exact H1|]. split; [exact H2|exact He].
Defined.

Lemma enter_exit_round_trip_witness :
  ops (entered [say "O1"]) !! 0 = Some root_handle ∧
  ∃ (c p : nat) (W1 W2 : World (list string) unit),
    op_Enter 0 "B" (entered [say "O1"]) = Some (c, W1) ∧
    op_Exit c W1 = Some (p, W2) ∧
    ops W2 !! p = Some root_handle.
Proof.
  split; [reflexivity|].
  destruct (enter_exit_round_trip (entered [say "O1"]) 0 root_handle "B"
              (wf_entered _) eq_refl)
    as (c & p & W1 & W2 & H1 & H2 & Hp & _).
  exists c, p, W1, W2. split; [exact H1|]. split; [exact H2|exact Hp].
Defined.

Lemma put_then_exit_reports_tag_witness :
  ops (entered [say "O1"]) !! 0 = Some root_handle ∧
  ∃ (W1 W2 : World (list string) unit) fl,
    op_Put 0 "k" (AInt 1) (entered [say "O1"]) = Some (0, W1) ∧
    op_Exit 0 W1 = Some (1, W2) ∧
    flat_tags fl !! "k" = Some (AInt 1).
Proof.
  split; [reflexivity|].
  destruct (put_then_exit_reports_tag (entered [say "O1"]) 0 root_handle 0
              "k" (AInt 1) (wf_entered _) eq_refl eq_refl)
    as (W1 & W2 & fl & u & H1 & H2 & Hk & _); [discriminate|].
  exists W1, W2, fl. split; [exact H1|]. split; [exact H2|exact Hk].
Defined.

Lemma put_invisible_to_older_scopes_witness :
  ops after_quiet !! 1 = Some (MkOp (Some 1) None) ∧
  ∃ W1 : World (list string) unit,
    op_Put 1 "k" (AInt 2) after_quiet = Some (1, W1) ∧
    tags_of (store W1) (Some 0) = tags_of (store after_quiet) (Some 0).
Proof.
  assert (Hrun : run quiet_calls (entered [say "O1"]) = Some after_quiet)
    by (vm_compute; reflexivity).
  assert (HW : wf after_quiet)
    by exact (run_wf quiet_calls _ _ (wf_entered _) Hrun).
  assert (Ho : ops after_quiet !! 1 = Some (MkOp (Some 1) None))
    by (vm_compute; reflexivity).
  split; [exact Ho|].
  destruct (put_invisible_to_older_scopes after_quiet 1 _ 0 1 "k" HW Ho
              eq_refl) as [Hput _]; [lia|].
  exact (Hput (AInt 2)).
Defined.

Lemma child_inherits_tag_witness :
  ops (entered [say "O1"]) !! 0 = Some root_handle ∧
  ∃ (c sc : nat) (W2 : World (list string) unit) x,
    ops W2 !! c = Some (MkOp (Some sc) None) ∧
    maps (AsMap (Some sc) None true W2).2 !! (AsMap (Some sc) None true W2).1
      = Some x ∧
    flat_tags x !! "user" = Some (AStr "ann") ∧
    flat_tags x !! "op" = Some (AStr "B").
Proof.
  split; [reflexivity|].
  destruct (child_inherits_tag (entered [say "O1"]) 0 root_handle 0
              "user" (AStr "ann") "B" (wf_entered _) eq_refl eq_refl)
    as (c & sc & W1 & W2 & _ & _ & Hc & Hflat); [done..|].
  destruct (Hflat None true) as (x & Hx & Hk & Hop).
  exists c, sc, W2, x. split; [exact Hc|]. split; [exact Hx|].
  split; [exact Hk|exact Hop].
Defined.

(** ** What the reporters receive *)

Section Reports.

Context {U Task : Type}.
Implicit Types (W : World U Task) (rs : list (Reporter U)) (r : Reporter U).
Implicit Types (h : op) (f : error) (c : call U Task).

(** [Exit] in full: the handle it returns, the log of invocations, and
    what the reporters did.  With an empty registry the maps and the user
    state are as before; otherwise one map is flattened and the reporters
    are applied to it one after the other, each to the failure of the
    handle. *)
Lemma op_Exit_effects o W h :
  ops W !! o = Some h →
  ∃ W', op_Exit o W = Some (length (ops W), W') ∧
    reporters W' = reporters W ∧ store W' = store W ∧
    ops W' = ops W ++ [MkOp (exitScope (ctx h) (store W)) None] ∧
    calls W' = calls W ++ reports (failure h) (length (maps W)) (reporters W) ∧
    (reporters W = [] → maps W' = maps W ∧ user W' = user W) ∧
    (reporters W ≠ [] →
       let x := read_tags (tags_of (store W) (ctx h)) (user W) (evals W) in
       let y := run_reporters (failure h) (reporters W)
                  (MkFlat x.1.1 (failure h), x.1.2) in
       maps W' = maps W ++ [y.1] ∧ user W' = y.2).
Proof.
  intros Ho.
  destruct (op_Exit_spec _ _ _ Ho) as (W' & Hx & Hr & Hs & _ & Hops & Hc).
  exists W'. split_and!; try done.
  - intros Hnil. rewrite (op_Exit_silent _ _ _ Ho Hnil) in Hx.
    by injection Hx as <-.
  - intros Hne.
    destruct (op_Exit_reporting _ _ _ Ho Hne) as (W'' & Hx' & Hm & Hu & _).
    rewrite Hx in Hx'. injection Hx' as <-. by split.
Qed.


(** C1. Latest error wins.  On any handle, after [FailOnError(e1)] and then
    [FailOnError(e2)], both errors not nil, [Exit] passes [e2] as the
    failure to every reporter it invokes: the log of invocations says so,
    and the map and the user state after [Exit] are what the reporters of
    the registry make of the flattened map when each is applied to [e2].
    And whatever call of the package comes next, a failure that is latched
    stays latched: it is replaced only by [FailOnError] on the same handle,
    with the error that is latched afterwards. *)
Theorem latest_error_wins W o h (e1 e2 : err) :
  ops W !! o = Some h →
  (∃ W1 W2 W3,
     op_FailOnError o (Some e1) W = Some (Some e1, W1) ∧
     op_FailOnError o (Some e2) W1 = Some (Some e2, W2) ∧
     op_Exit o W2 = Some (length (ops W), W3) ∧
     calls W3 =
       calls W ++ reports (Some e2) (length (maps W)) (reporters W) ∧
     (reporters W ≠ [] →
        let x := read_tags (tags_of (store W) (ctx h)) (user W) (evals W) in
        let y := run_reporters (Some e2) (reporters W)
                   (MkFlat x.1.1 (Some e2), x.1.2) in
        maps W3 = maps W ++ [y.1] ∧ user W3 = y.2)) ∧
  (∀ c W' (e : err),
     failure h = Some e → exec c W = Some W' →
     ∃ e', failure <$> ops W' !! o = Some (Some e') ∧
           (e' ≠ e → c = COpFailOnError o (Some e'))).
Proof.
  intros Ho. split.
  - assert (Hlt : o < length (ops W)) by (by eapply lookup_lt_Some).
    set (W1 := set_ops (<[o := MkOp (ctx h) (Some e1)]> (ops W)) W).
    assert (Ho1 : ops W1 !! o = Some (MkOp (ctx h) (Some e1))).
    { simpl. by apply list_lookup_insert_eq. }
    set (W2 := set_ops (<[o := MkOp (ctx h) (Some e2)]> (ops W1)) W1).
    assert (Ho2 : ops W2 !! o = Some (MkOp (ctx h) (Some e2))).
    { simpl. apply list_lookup_insert_eq. by rewrite length_insert. }
    destruct (op_Exit_effects _ _ _ Ho2)
      as (W3 & Hx & _ & _ & _ & Hc & _ & Hne).
    exists W1, W2, W3. split_and!.
    + by apply op_FailOnError_eq.
    + by apply (op_FailOnError_eq _ e2 _ _ Ho1).
    + simpl in Hx. by rewrite !length_insert in Hx.
    + done.
    + done.
  - intros c W' e He Hc.
    rewrite (exec_ops _ _ _ _ _ Hc Ho), He. simpl.
    destruct (latched_Some c o e) as (e' & -> & Himp). eauto.
Qed.

(** C7. [FailOnError] returns its argument, whatever the argument; with nil
    it leaves the world as it is.  A handle that has no failure, and on
    which the calls that follow include no [FailOnError] with an error that
    is not nil, passes nil as the failure to every reporter that its [Exit]
    invokes: the log of invocations says so, and the map and the user
    state after [Exit] are what the reporters of the registry make of the
    flattened map when each is applied to nil.  A handle just made by
    [Enter] has no failure. *)
Theorem absent_failure_success W o h (cs : list (call U Task)) W2 :
  ops W !! o = Some h → failure h = None →
  (∀ e : err, COpFailOnError o (Some e) ∉ cs) →
  run cs W = Some W2 →
  (∀ o' e (Wa : World U Task) x,
     op_FailOnError o' e Wa = Some x → x.1 = e) ∧
  (∀ o' (Wa : World U Task), op_FailOnError o' None Wa = Some (None, Wa)) ∧
  (∃ W3, op_Exit o W2 = Some (length (ops W2), W3) ∧
     calls W3 = calls W2 ++ reports None (length (maps W2)) (reporters W2) ∧
     (reporters W2 ≠ [] →
        let x := read_tags (tags_of (store W2) (ctx h)) (user W2) (evals W2) in
        let y := run_reporters None (reporters W2) (MkFlat x.1.1 None, x.1.2) in
        maps W3 = maps W2 ++ [y.1] ∧ user W3 = y.2)) ∧
  (∀ name (Wa : World U Task), ∃ i : nat,
     ops (Enter name Wa).2 !! (Enter name Wa).1 = Some (MkOp (Some i) None)).
Proof.
  intros Ho Hf Hcs Hrun. split_and!.
  - intros o' e Wa x Hx. unfold op_FailOnError in Hx.
    destruct e as [e|]; [|by injection Hx as <-].
    destruct (ops Wa !! o'); [|done]. by injection Hx as <-.
  - done.
  - pose proof (run_ops _ _ _ _ _ Hrun Ho) as Ho2.
    rewrite foldl_latched_other, Hf in Ho2 by done.
    destruct (op_Exit_effects _ _ _ Ho2)
      as (W3 & Hx & _ & _ & _ & Hc & _ & Hne).
    by exists W3.
  - intros name Wa. destruct (Enter_shape name Wa) as (i & st & ->).
    exists i. simpl. by rewrite lookup_app_r, Nat.sub_diag by lia.
Qed.


(** X3.  The failure recorded on a child is reported by the child's [Exit]
    and goes no further.  The child's [Exit] applies the reporters to that
    failure; the parent is left as it was and the handle that the child's
    [Exit] returns has no failure; the parent's own [Exit] then applies the
    reporters to the parent's own failure. *)
Theorem child_failure_stays_with_child W o h name (e : err) :
  ops W !! o = Some h →
  ∃ (c p q sc : nat) W1 W2 W3 W4,
    op_Enter o name W = Some (c, W1) ∧
    ops W1 !! c = Some (MkOp (Some sc) None) ∧
    op_FailOnError c (Some e) W1 = Some (Some e, W2) ∧
    op_Exit c W2 = Some (p, W3) ∧
    calls W3 = calls W ++ reports (Some e) (length (maps W)) (reporters W) ∧
    (reporters W ≠ [] →
       let x := read_tags (tags_of (store W2) (Some sc)) (user W) (evals W) in
       let y := run_reporters (Some e) (reporters W)
                  (MkFlat x.1.1 (Some e), x.1.2) in
       maps W3 = maps W ++ [y.1] ∧ user W3 = y.2) ∧
    ops W3 !! o = Some h ∧
    failure <$> ops W3 !! p = Some None ∧
    op_Exit o W3 = Some (q, W4) ∧
    calls W4 =
      calls W3 ++ reports (failure h) (length (maps W3)) (reporters W) ∧
    (reporters W ≠ [] →
       let x := read_tags (tags_of (store W3) (ctx h)) (user W3) (evals W3) in
       let y := run_reporters (failure h) (reporters W)
                  (MkFlat x.1.1 (failure h), x.1.2) in
       maps W4 = maps W3 ++ [y.1] ∧ user W4 = y.2).
Proof.
  intros Ho. assert (Hlt : o < length (ops W)) by (by eapply lookup_lt_Some).
  destruct (op_Enter_total o name W h Ho) as (i & st & HE).
  set (W1 := set_ops _ (set_store st W)) in HE.
  assert (Hc1 : ops W1 !! length (ops W) = Some (MkOp (Some i) None)).
  { simpl. by rewrite lookup_app_r, Nat.sub_diag by lia. }
  pose proof (op_FailOnError_eq _ e _ _ Hc1) as HF.
  set (W2 := set_ops _ W1) in HF.
  assert (Hc2 : ops W2 !! length (ops W) = Some (MkOp (Some i) (Some e))).
  { simpl. apply list_lookup_insert_eq. rewrite length_app. simpl. lia. }
  destruct (op_Exit_effects _ _ _ Hc2)
    as (W3 & Hx3 & Hr3 & _ & Ho3 & Hcalls3 & _ & Hne3).
  assert (Hops2 : ops W2 = ops W ++ [MkOp (Some i) (Some e)]).
  { simpl. replace (length (ops W)) with (length (ops W) + 0) by lia.
    by rewrite insert_app_r. }
  assert (Hp3 : ops W3 !! o = Some h).
  { rewrite Ho3, Hops2. by do 2 apply lookup_app_l_Some. }
  destruct (op_Exit_effects _ _ _ Hp3)
    as (W4 & Hx4 & _ & _ & _ & Hcalls4 & _ & Hne4).
  exists (length (ops W)), (length (ops W2)), (length (ops W3)), i,
    W1, W2, W3, W4.
  split_and!; try done.
  - rewrite Ho3. by rewrite lookup_app_r, Nat.sub_diag by lia.
  - by rewrite Hcalls4, Hr3.
  - intros Hne. assert (Hr : reporters W3 = reporters W) by exact Hr3.
    rewrite <- Hr in Hne |- *. by apply Hne4.
Qed.

(** *** Dynamic values *)

Lemma read_tags_statics (tags : gmap string (tag U)) (u : U) log :
  (∀ k t, tags !! k = Some t → ∃ v, t = Static v) →
  (read_tags tags u log).1.2 = u ∧ (read_tags tags u log).2 = log.
Proof.
  unfold read_tags.
  apply (map_fold_weak_ind (λ acc tg,
    (∀ k t, tg !! k = Some t → ∃ v, t = Static v) →
    acc.1.2 = u ∧ acc.2 = log)).
  - done.
  - intros j x tg [[m u'] lg] Hj IH Hall.
    destruct (Hall j x) as [v ->]; [by rewrite lookup_insert_eq|].
    simpl. apply IH. intros k t Hk. apply (Hall k t).
    rewrite lookup_insert_ne; [done|]. intros ->. congruence.
Qed.

(** When [k] is the one dynamic tag among those read, its function is
    applied once, to the user state of the moment: the value goes into the
    map and the state it leaves is the state after the read. *)
Lemma read_tags_one_dynamic (tags : gmap string (tag U)) (u : U) log k g :
  tags !! k = Some (Dynamic g) →
  (∀ k' t, k' ≠ k → tags !! k' = Some t → ∃ v, t = Static v) →
  (read_tags tags u log).1.1 !! k = Some (g u).1 ∧
  (read_tags tags u log).1.2 = (g u).2 ∧
  (read_tags tags u log).2 = log ++ [k].
Proof.
  unfold read_tags.
  apply (map_fold_weak_ind (λ acc tg,
    ((∀ k' t, tg !! k' = Some t → ∃ v, t = Static v) →
     acc.1.2 = u ∧ acc.2 = log) ∧
    (tg !! k = Some (Dynamic g) →
     (∀ k' t, k' ≠ k → tg !! k' = Some t → ∃ v, t = Static v) →
     acc.1.1 !! k = Some (g u).1 ∧ acc.1.2 = (g u).2 ∧ acc.2 = log ++ [k]))).
  - split; [done|]. intros Hk. by rewrite lookup_empty in Hk.
  - intros j x tg [[m u'] lg] Hj [IH1 IH2]. split.
    + intros Hall.
      destruct (Hall j x) as [v ->]; [by rewrite lookup_insert_eq|].
      simpl. apply IH1. intros k' t Hk'. apply (Hall k' t).
      rewrite lookup_insert_ne; [done|]. intros ->. congruence.
    + intros Hk Hothers. destruct (decide (j = k)) as [->|Hne].
      * rewrite lookup_insert_eq in Hk. injection Hk as ->.
        destruct IH1 as [Hu Hl].
        { intros k' t Hk'. apply (Hothers k' t); [congruence|].
          rewrite lookup_insert_ne; [done|]. congruence. }
        simpl in Hu, Hl. subst u' lg. simpl.
        destruct (g u) as [v u'']. simpl. by rewrite lookup_insert_eq.
      * rewrite lookup_insert_ne in Hk by done.
        destruct (Hothers j x) as [v ->]; [done|by rewrite lookup_insert_eq|].
        simpl. rewrite lookup_insert_ne by done. apply IH2; [done|].
        intros k' t Hk' Hlk. apply (Hothers k' t); [done|].
        rewrite lookup_insert_ne; [done|]. intros ->. congruence.
Qed.

Lemma tags_of_None st : tags_of st None = (∅ : gmap string (tag U)).
Proof. unfold tags_of. apply merged_None. Qed.

Lemma tags_of_put_eq st (i : nat) k (t : tag U) :
  wf_store st → i < length st →
  tags_of (put (Some i) k t st) (Some i) = <[k := t]> (tags_of st (Some i)).
Proof.
  intros Hwf Hi. destruct (lookup_lt_is_Some_2 _ _ Hi) as [sc Hsc].
  rewrite (tags_of_Some _ i (set_tag k t sc)).
  - rewrite (tags_of_Some st i sc) by done. simpl.
    rewrite insert_union_l. f_equal.
    destruct (parent sc) as [q|] eqn:Hq; [|by rewrite !tags_of_None].
    apply (tags_of_put_older st q i k t Hwf). by eapply Hwf.
  - by apply wf_store_put.
  - simpl. by rewrite list_lookup_alter_eq, Hsc.
Qed.

(** X11.  A value attached with [PutDynamic] is evaluated at every read and
    not when it is attached.  [PutDynamic] sets the tag at the level of the
    handle, leaves the other tags seen from there as they were, and leaves
    the user state and the maps alone.  Every [Exit], of any handle from
    which the tag is seen and is the one dynamic tag seen, with a registry
    that is not empty, applies the function once to the user state of that
    moment: the value it returns is in the map under the key, and the
    reporters run on that map and on the state the function left. *)
Theorem dynamic_read_at_every_exit W o h (i : nat) k (g : dynfn U) :
  wf W → ops W !! o = Some h → ctx h = Some i →
  (∃ W1,
     op_PutDynamic o k g W = Some (o, W1) ∧
     user W1 = user W ∧ maps W1 = maps W ∧ evals W1 = evals W ∧
     tags_of (store W1) (Some i) !! k = Some (Dynamic g) ∧
     ∀ k', k' ≠ k →
       tags_of (store W1) (Some i) !! k' = tags_of (store W) (Some i) !! k') ∧
  (∀ (Wr : World U Task) o' h',
     ops Wr !! o' = Some h' → reporters Wr ≠ [] →
     tags_of (store Wr) (ctx h') !! k = Some (Dynamic g) →
     (∀ k' t, k' ≠ k → tags_of (store Wr) (ctx h') !! k' = Some t →
        ∃ v, t = Static v) →
     ∃ Wr' fl,
       op_Exit o' Wr = Some (length (ops Wr), Wr') ∧
       flat_tags fl !! k = Some (g (user Wr)).1 ∧
       flat_failure fl = failure h' ∧
       maps Wr' =
         maps Wr ++ [(run_reporters (failure h') (reporters Wr)
                        (fl, (g (user Wr)).2)).1] ∧
       user Wr' =
         (run_reporters (failure h') (reporters Wr) (fl, (g (user Wr)).2)).2 ∧
       evals Wr' = evals Wr ++ [k]).
Proof.
  intros [Hwf Hops] Ho Hi. split.
  - assert (Hlt : i < length (store W)) by (by apply (Hops o h Ho)).
    eexists. split; [unfold op_PutDynamic, put_ctx; by rewrite Ho|].
    simpl. rewrite Hi. split_and!; try done.
    + by apply tags_of_put.
    + intros k' Hk'. rewrite tags_of_put_eq by done.
      by rewrite lookup_insert_ne.
  - intros Wr o' h' Ho' Hne Hk Hothers.
    destruct (op_Exit_reporting _ _ _ Ho' Hne) as (Wr' & Hx & Hm & Hu & He).
    cbv zeta in Hm, Hu, He.
    destruct (read_tags_one_dynamic _ (user Wr) (evals Wr) k g Hk Hothers)
      as (Hv & Hst & Hlog).
    rewrite Hst in Hm, Hu. rewrite Hlog in He.
    exists Wr',
      (MkFlat (read_tags (tags_of (store Wr) (ctx h')) (user Wr) (evals Wr)).1.1
         (failure h')).
    by split_and!.
Qed.

End Reports.

(** ** These theorems at work on the small program *)

Lemma latest_error_wins_witness :
  ops (entered [note]) !! 0 = Some root_handle ∧
  ∃ W3 : World (list string) unit,
    calls W3 = [(note, Some (Err "second"), 0)] ∧
    user W3 = ["second"].
Proof.
  split; [reflexivity|].
  destruct (latest_error_wins (entered [note]) 0 root_handle
              (Err "first") (Err "second") eq_refl)
    as [(W1 & W2 & W3 & _ & _ & _ & Hc & Hne) _].
  destruct Hne as [_ Hu]; [discriminate|].
  exists W3. split; [exact Hc|]. vm_compute in Hu. exact Hu.
Defined.

Lemma absent_failure_success_witness :
  run quiet_calls (entered [note]) = Some after_quiet_note ∧
  ∃ W3 : World (list string) unit,
    op_Exit 0 after_quiet_note = Some (2, W3) ∧
    calls W3 = [(note, None, 0)] ∧
    user W3 = ["ok"].
Proof.
  assert (Hrun : run quiet_calls (entered [note]) = Some after_quiet_note)
    by (vm_compute; reflexivity).
  split; [exact Hrun|].
  assert (Hcs : ∀ e : err, COpFailOnError 0 (Some e) ∉ quiet_calls).
  { intros e Hin. unfold quiet_calls in Hin.
    repeat (apply elem_of_cons in Hin as [Hin|Hin]; [discriminate|]).
    by apply elem_of_nil in Hin. }
  destruct (absent_failure_success (entered [note]) 0 root_handle
              quiet_calls after_quiet_note eq_refl eq_refl Hcs Hrun)
    as (_ & _ & (W3 & Hx & Hc & Hne) & _).
  destruct Hne as [_ Hu]; [discriminate|].
  exists W3. split; [exact Hx|]. split; [exact Hc|].
  vm_compute in Hu. exact Hu.
Defined.


Lemma child_failure_stays_with_child_witness :
  ops (entered [note]) !! 0 = Some root_handle ∧
  ∃ (p : nat) (W3 W4 : World (list string) unit),
    user W3 = ["boom"] ∧
    failure <$> ops W3 !! p = Some None ∧
    user W4 = ["boom"; "ok"].
Proof.
  split; [reflexivity|].
  destruct (child_failure_stays_with_child (entered [note]) 0
              root_handle "B" (Err "boom") eq_refl)
    as (c & p & q & sc & W1 & W2 & W3 & W4 & HE & Hsc & HF & Hx3 & _ & Hne3
        & _ & Hp & _ & _ & Hne4).
  vm_compute in HE. injection HE as <- <-.
  vm_compute in Hsc. injection Hsc as <-.
  vm_compute in HF. injection HF as <-.
  vm_compute in Hx3. injection Hx3 as _ HW3.
  destruct Hne3 as [_ Hu3]; [discriminate|]. vm_compute in Hu3.
  rewrite <- HW3 in Hne4.
  destruct Hne4 as [_ Hu4]; [discriminate|]. vm_compute in Hu4.
  exists p, W3, W4. split; [exact Hu3|]. split; [exact Hp|exact Hu4].
Defined.

Lemma entered_tags_static rs k' t :
  tags_of (store (entered rs)) (Some 0) !! k' = Some t → ∃ v, t = Static v.
Proof.
  unfold entered. rewrite Enter_eq.
  2:{ rewrite register_all_eq. intros i sc q Hi. by destruct i. }
  rewrite register_all_eq.
  change (store _) with [MkScope (U:=list string) None (enter_tags "A" None)].
  rewrite (tags_of_Some _ 0 (MkScope None (enter_tags "A" None))).
  - rewrite tags_of_None, (right_id_L ∅ (∪)).
    change (data _) with (enter_tags (U:=list string) "A" None).
    intros Hk. destruct (decide (k' = "op")) as [->|H1].
    { rewrite enter_tags_op in Hk. injection Hk as <-. by eexists. }
    destruct (decide (k' = "root_op")) as [->|H2].
    { rewrite enter_tags_root_op in Hk. injection Hk as <-. by eexists. }
    by rewrite enter_tags_other in Hk.
  - intros i sc q Hi Hq. destruct i as [|i]; simpl in Hi.
    + injection Hi as <-. discriminate Hq.
    + by destruct i.
  - done.
Qed.

Lemma dynamic_read_at_every_exit_witness :
  ops (entered [read_t]) !! 0 = Some root_handle ∧
  ∃ (W1 W2 : World (list string) unit),
    op_PutDynamic 0 "t" tick (entered [read_t]) = Some (0, W1) ∧
    user W1 = [] ∧
    op_Exit 0 W1 = Some (1, W2) ∧
    user W2 = ["tick"; "t=0"].
Proof.
  split; [reflexivity|].
  destruct (dynamic_read_at_every_exit (entered [read_t]) 0 root_handle 0
              "t" tick (wf_entered _) eq_refl eq_refl)
    as [(W1 & HP & Hu1 & _ & _ & Ht & Hother) Hread].
  pose proof HP as HW1. vm_compute in HW1. injection HW1 as HW1.
  assert (Ho1 : ops W1 !! 0 = Some root_handle) by (by rewrite <- HW1).
  assert (Hr1 : reporters W1 = [read_t]) by (by rewrite <- HW1).
  assert (Hlen : length (ops W1) = 1) by (by rewrite <- HW1).
  destruct (Hread W1 0 root_handle Ho1) as (W2 & fl & Hx & Hv & _ & _ & Hu2 & _).
  - by rewrite Hr1.
  - exact Ht.
  - intros k' t Hk' Hlk. rewrite Hother in Hlk by done.
    by apply (entered_tags_static [read_t] k' t).
  - exists W1, W2. split; [exact HP|]. split; [exact Hu1|].
    rewrite Hlen in Hx. split; [exact Hx|].
    rewrite Hr1, Hu1 in Hu2. rewrite Hu1 in Hv.
    unfold run_reporters in Hu2. cbn [foldl fst snd] in Hu2.
    unfold read_t in Hu2. cbn [snd] in Hu2. rewrite Hv in Hu2. exact Hu2.
Defined.
